(** * DS.Adapter: commit, grouping and materialization

    A shallow embedding of [packages/ember-data/lib/adapters/adapter.js].

    The adapter is written against three kinds of mutable objects: the
    record being materialized, Ember arrays ([Ember.A()], [pushObject],
    [slice]) and an [Ember.MapWithDefault].  Each is kept in an explicit
    store that is threaded through the code by a small state monad, so
    that object identity (which array a callee receives) stays visible.

    Calls that leave the function at hand -- the overridable methods
    reached through [this], the callbacks on the store, and the setters of
    the record -- are observed as events appended to a log, in program
    order.  The log records that the call is made and with which
    arguments; the body of the callee is not run in its place.  Methods the
    base class leaves to the subclass ([find] is [null], [createRecord],
    [updateRecord] and [deleteRecord] are not defined at all) are calls on
    the implementing subclass.  The one callee whose answer is used,
    [shouldCommit], is a parameter of [commit].

    Objects are compared structurally; the [guid] of a record and the
    [type_guid] of a record type stand for their identity. *)

From stdpp Require Import base list gmap strings.
From Stdlib Require Import ZArith.

#[local] Set Warnings "-clear-no-such-hyp".

(** ** A state monad *)

Definition St (S A : Type) : Type := S → A * S.

Global Instance St_ret {S} : MRet (St S) := λ A a s, (a, s).
Global Instance St_bind {S} : MBind (St S) :=
  λ A B f c s, let '(a, s') := c s in f a s'.

Definition gets {S A} (f : S → A) : St S A := λ s, (f s, s).
Definition modify {S} (f : S → S) : St S unit := λ s, (tt, f s).

(** [enumerable.forEach(callback)] over the items of an enumerable. *)
Fixpoint forEach {S A} (items : list A) (callback : A → St S unit) : St S unit :=
  match items with
  | [] => mret tt
  | item :: rest => callback item ;; forEach rest callback
  end.

(** ** JavaScript values carried by a raw payload *)

#[warnings="-register-all"]
Inductive value : Type :=
| VUndefined
| VNull
| VBool (b : bool)
| VNum (n : Z)
| VStr (s : string)
| VArr (items : list value)
| VBuiltin (path : string).

Definition value_eq_dec : ∀ v w : value, {v = w} + {v ≠ w}.
Proof.
  fix IH 1. intros v w.
  decide equality;
    first [ apply Bool.bool_dec | apply Z.eq_dec | apply String.string_dec
          | apply (List.list_eq_dec IH) ].
Defined.

Global Instance value_eq_decision : EqDecision value := value_eq_dec.

(** What every plain object inherits: the properties of
    [Object.prototype], each bound to a built-in named by its path.  The
    table has the names of the standard and the legacy accessor methods
    that some engines add. *)
Definition Object_prototype : gmap string value :=
  list_to_map
    [("constructor", VBuiltin "Object");
     ("toString", VBuiltin "Object.prototype.toString");
     ("toLocaleString", VBuiltin "Object.prototype.toLocaleString");
     ("valueOf", VBuiltin "Object.prototype.valueOf");
     ("hasOwnProperty", VBuiltin "Object.prototype.hasOwnProperty");
     ("isPrototypeOf", VBuiltin "Object.prototype.isPrototypeOf");
     ("propertyIsEnumerable", VBuiltin "Object.prototype.propertyIsEnumerable");
     ("__proto__", VBuiltin "Object.prototype");
     ("__defineGetter__", VBuiltin "Object.prototype.__defineGetter__");
     ("__defineSetter__", VBuiltin "Object.prototype.__defineSetter__");
     ("__lookupGetter__", VBuiltin "Object.prototype.__lookupGetter__");
     ("__lookupSetter__", VBuiltin "Object.prototype.__lookupSetter__")].

(** The payload is a plain object (an object literal, parsed JSON); the
    map [hash] holds its own properties.  The property read [hash[name]]
    finds an own property first, then follows the prototype chain to
    [Object.prototype], and yields [undefined] when neither has the
    name. *)
Definition hash_get (hash : gmap string value) (name : string) : value :=
  match hash !! name with
  | Some v => v
  | None => default VUndefined (Object_prototype !! name)
  end.

(** ** Record types and records *)

Record AttributeMeta := { attr_type : string }.
Record AssociationMeta := { kind : string }.

Global Instance AttributeMeta_eq_dec : EqDecision AttributeMeta.
Proof. solve_decision. Defined.
Global Instance AssociationMeta_eq_dec : EqDecision AssociationMeta.
Proof. solve_decision. Defined.

(** Modelled from the spec: the record type ([record.constructor]) is
    defined in the model layer, not in the adapter.  It identifies a class
    of records and owns an ordered mapping from association name to
    association metadata and a mapping from attribute name to attribute
    metadata; both are kept in iteration order. *)
Record RecordType := {
  type_guid : nat;
  attributes : list (string * AttributeMeta);
  associationsByName : list (string * AssociationMeta)
}.

Global Instance RecordType_eq_dec : EqDecision RecordType.
Proof. solve_decision. Defined.

(** Modelled from the spec: a record is an instance of a record type with
    an identifier, a dirty flag and a mapping from field name to current
    value. *)
Record RecordObj := {
  guid : nat;
  constructor : RecordType;
  isDirty : bool;
  rec_id : value;
  data : gmap string value
}.

Global Instance RecordObj_eq_dec : EqDecision RecordObj.
Proof. solve_decision. Defined.

Definition attribute_names (type : RecordType) : list string :=
  (attributes type).*1.
Definition association_names (type : RecordType) : list string :=
  (associationsByName type).*1.

(** ** The record's side of materialization *)

(** The four calls the adapter makes on a record. *)
Inductive RecordCall : Type :=
| RecMaterializeId (id : value)
| RecMaterializeAttribute (name : string) (v : value)
| RecMaterializeHasMany (name : string) (v : value)
| RecMaterializeBelongsTo (name : string) (v : value).

Global Instance RecordCall_eq_dec : EqDecision RecordCall.
Proof. solve_decision. Defined.

(** Writing one entry of the field mapping. *)
Definition set_field (name : string) (v : value) (r : RecordObj) : RecordObj :=
  {| guid := guid r; constructor := constructor r; isDirty := isDirty r;
     rec_id := rec_id r; data := <[name := v]> (data r) |}.

(** Modelled from the spec: the setters [record.materializeId],
    [record.materializeAttribute], [record.materializeHasMany] and
    [record.materializeBelongsTo] live in the model layer.  The spec
    describes them as setters that put a raw value onto the record: the
    identifier, or the named entry of the field mapping. *)
Definition record_apply (c : RecordCall) (r : RecordObj) : RecordObj :=
  match c with
  | RecMaterializeId v =>
      {| guid := guid r; constructor := constructor r; isDirty := isDirty r;
         rec_id := v; data := data r |}
  | RecMaterializeAttribute name v => set_field name v r
  | RecMaterializeHasMany name v => set_field name v r
  | RecMaterializeBelongsTo name v => set_field name v r
  end.

(** The record under materialization together with the calls it received. *)
Record MatState := {
  self : RecordObj;
  calls : list RecordCall
}.

Definition invoke (c : RecordCall) : St MatState unit :=
  modify (λ s, {| self := record_apply c (self s); calls := calls s ++ [c] |}).

(** Modelled from the spec: [record.eachAttribute] iterates the attribute
    mapping of the record's type, handing name and metadata to the
    callback. *)
Definition eachAttribute (record : RecordObj)
    (callback : string → AttributeMeta → St MatState unit) : St MatState unit :=
  forEach (attributes (constructor record)) (λ '(name, attribute), callback name attribute).

(** ** Adapter: materialization *)

Definition extractId (type : RecordType) (hash : gmap string value) : value :=
  hash_get hash "id".

Definition materializeId (hash : gmap string value) : St MatState unit :=
  record ← gets self;
  invoke (RecMaterializeId (extractId (constructor record) hash)).

Definition materializeAttribute (hash : gmap string value) (name : string)
  : St MatState unit :=
  invoke (RecMaterializeAttribute name (hash_get hash name)).

Definition materializeAttributes (hash : gmap string value) : St MatState unit :=
  record ← gets self;
  eachAttribute record (λ name attribute, materializeAttribute hash name).

Definition materializeHasMany (hash : gmap string value) (name : string)
  : St MatState unit :=
  invoke (RecMaterializeHasMany name (hash_get hash name)).

Definition materializeBelongsTo (hash : gmap string value) (name : string)
  : St MatState unit :=
  invoke (RecMaterializeBelongsTo name (hash_get hash name)).

Definition materialize_association (hash : gmap string value)
    (entry : string * AssociationMeta) : St MatState unit :=
  let '(name, meta) := entry in
  if decide (kind meta = "hasMany") then materializeHasMany hash name
  else if decide (kind meta = "belongsTo") then materializeBelongsTo hash name
  else mret tt.

Definition materialize_body (hash : gmap string value) : St MatState unit :=
  materializeId hash ;;
  materializeAttributes hash ;;
  record ← gets self;
  forEach (associationsByName (constructor record)) (materialize_association hash).

(** [materialize(record, hash)]: the record after the call, and the calls
    made on it. *)
Definition materialize (record : RecordObj) (hash : gmap string value) : MatState :=
  (materialize_body hash {| self := record; calls := [] |}).2.

(** ** Ember arrays and maps *)

(** The object store seen by [commit]: Ember arrays and Ember maps live at
    addresses (their position in the store, objects are never freed), and
    [trace] is the log of outgoing calls. *)
Definition Store := nat.
Definition Relationships := nat.

Inductive Event : Type :=
| CallShouldCommit (record : RecordObj) (relationships : Relationships)
| CallDidUpdateRecord (store : Store) (record : RecordObj)
| CallCreateRecords (store : Store) (type : RecordType) (records : nat)
| CallUpdateRecords (store : Store) (type : RecordType) (records : nat)
| CallDeleteRecords (store : Store) (type : RecordType) (records : nat)
| CallCreateRecord (store : Store) (type : RecordType) (record : RecordObj)
| CallUpdateRecord (store : Store) (type : RecordType) (record : RecordObj)
| CallDeleteRecord (store : Store) (type : RecordType) (record : RecordObj)
| CallFind (store : Store) (type : RecordType) (id : value).

Global Instance Event_eq_dec : EqDecision Event.
Proof. solve_decision. Defined.

Record World := {
  arrays : list (list RecordObj);
  maps : list (list (RecordType * nat));
  trace : list Event
}.

Definition call (e : Event) : St World unit :=
  modify (λ w, {| arrays := arrays w; maps := maps w; trace := trace w ++ [e] |}).

(** Allocation of an array object: it gets the next free address. *)
Definition new_array (items : list RecordObj) : St World nat :=
  λ w, (length (arrays w),
        {| arrays := arrays w ++ [items]; maps := maps w; trace := trace w |}).

(** [Ember.A()]: a fresh empty array. *)
Definition Ember_A : St World nat := new_array [].

(** The items of the array at [arr], as [forEach] and [slice] read them.
    A reference always names a live array; the model reads [[]] at an
    address nothing was allocated at. *)
Definition array_items (arr : nat) : St World (list RecordObj) :=
  gets (λ w, default [] (arrays w !! arr)).

(** [array.pushObject(item)]: in-place append. *)
Definition pushObject (arr : nat) (item : RecordObj) : St World unit :=
  modify (λ w, {| arrays := alter (λ items, items ++ [item]) arr (arrays w);
                  maps := maps w; trace := trace w |}).

(** [array.slice()]: a fresh array with the same items. *)
Definition slice (arr : nat) : St World nat :=
  items ← array_items arr;
  new_array items.

(** [Ember.MapWithDefault.create(...)]: a fresh map without keys.  A map
    keeps its keys in insertion order; each key of [groupByType]'s map is
    bound to the address of an array. *)
Definition MapWithDefault_create : St World nat :=
  λ w, (length (maps w),
        {| arrays := arrays w; maps := maps w ++ [[]]; trace := trace w |}).

Definition map_entries (map : nat) : St World (list (RecordType * nat)) :=
  gets (λ w, default [] (maps w !! map)).

Fixpoint entry_find (key : RecordType) (entries : list (RecordType * nat)) : option nat :=
  match entries with
  | [] => None
  | (k, v) :: rest => if decide (k = key) then Some v else entry_find key rest
  end.

(** [map.set(key, value)] for a key the map does not have yet. *)
Definition map_set_new (map : nat) (key : RecordType) (v : nat) : St World unit :=
  modify (λ w, {| arrays := arrays w;
                  maps := alter (λ entries, entries ++ [(key, v)]) map (maps w);
                  trace := trace w |}).

(** [map.get(key)] of a [MapWithDefault] whose [defaultValue] is
    [Ember.A()]: a missing key is first bound to a fresh array. *)
Definition map_get (map : nat) (key : RecordType) : St World nat :=
  entries ← map_entries map;
  match entry_find key entries with
  | Some arr => mret arr
  | None => arr ← Ember_A; map_set_new map key arr ;; mret arr
  end.

(** [map.forEach(callback)]: keys in insertion order with their values. *)
Definition map_forEach (map : nat) (callback : RecordType → nat → St World unit)
  : St World unit :=
  entries ← map_entries map;
  forEach entries (λ '(key, v), callback key v).

(** What [groupByType] and the batched methods iterate: an ordered set
    handed in by the store, or an Ember array of the object store. *)
Inductive Enumerable : Type :=
| OrderedSet (items : list RecordObj)
| EmberArray (arr : nat).

Definition enumerable_items (enumerable : Enumerable) : St World (list RecordObj) :=
  match enumerable with
  | OrderedSet items => mret items
  | EmberArray arr => array_items arr
  end.

(** ** Adapter: commit *)

(** The one method of the adapter whose answer steers [commit]; a subclass
    may override it. *)
Record Adapter := {
  shouldCommit : RecordObj → Relationships → bool
}.

(** The base class: [shouldCommit] returns [true]. *)
Definition DS_Adapter : Adapter := {| shouldCommit := λ record relationships, true |}.

(** [this.shouldCommit(record, relationships)]: the call is logged and
    the adapter's answer returned. *)
Definition call_shouldCommit (this : Adapter) (record : RecordObj)
    (relationships : Relationships) : St World bool :=
  call (CallShouldCommit record relationships) ;;
  mret (shouldCommit this record relationships).

Definition groupByType (enumerable : Enumerable) : St World nat :=
  map ← MapWithDefault_create;
  items ← enumerable_items enumerable;
  forEach items (λ item,
    arr ← map_get map (constructor item);
    pushObject arr item) ;;
  mret map.

(** [commitDetails]: three ordered sets of records, each in iteration
    order. *)
Record CommitDetails := {
  created : list RecordObj;
  updated : list RecordObj;
  deleted : list RecordObj
}.

(** The callback of the first loop of [commit]; [updated] is the local
    array of that name. *)
Definition commit_filter (this : Adapter) (store : Store)
    (relationships : Relationships) (updated : nat) (record : RecordObj)
  : St World unit :=
  if negb (isDirty record) then
    should ← call_shouldCommit this record relationships;
    if negb should then call (CallDidUpdateRecord store record)
    else pushObject updated record
  else pushObject updated record.

Definition commit (this : Adapter) (store : Store) (commitDetails : CommitDetails)
    (relationships : Relationships) : St World unit :=
  let '{| created := created_set; updated := updated_set; deleted := deleted_set |}
    := commitDetails in
  updated ← Ember_A;
  forEach updated_set (commit_filter this store relationships updated) ;;
  (created_map ← groupByType (OrderedSet created_set);
   map_forEach created_map (λ type array,
     copy ← slice array; call (CallCreateRecords store type copy))) ;;
  (updated_map ← groupByType (EmberArray updated);
   map_forEach updated_map (λ type array,
     copy ← slice array; call (CallUpdateRecords store type copy))) ;;
  (deleted_map ← groupByType (OrderedSet deleted_set);
   map_forEach deleted_map (λ type array,
     copy ← slice array; call (CallDeleteRecords store type copy))).

(** ** Adapter: default batched methods *)

(** [records] and [ids] are what the caller hands in: an ordered set, an
    Ember array such as the copy [commit] passes, or a plain list of ids. *)

Definition createRecords (store : Store) (type : RecordType) (records : Enumerable)
  : St World unit :=
  items ← enumerable_items records;
  forEach items (λ record, call (CallCreateRecord store type record)).

Definition updateRecords (store : Store) (type : RecordType) (records : Enumerable)
  : St World unit :=
  items ← enumerable_items records;
  forEach items (λ record, call (CallUpdateRecord store type record)).

Definition deleteRecords (store : Store) (type : RecordType) (records : Enumerable)
  : St World unit :=
  items ← enumerable_items records;
  forEach items (λ record, call (CallDeleteRecord store type record)).

Definition findMany (store : Store) (type : RecordType) (ids : list value)
  : St World unit :=
  forEach ids (λ id, call (CallFind store type id)).

Definition empty_world : World := {| arrays := []; maps := []; trace := [] |}.

(** ** Reference notions used to state the properties *)

(** The distinct elements of a list, each at the place of its first
    occurrence. *)
Fixpoint first_seen (types : list RecordType) : list RecordType :=
  match types with
  | [] => []
  | t :: rest => t :: filter (λ u, u ≠ t) (first_seen rest)
  end.

(** The items of a given type, in their original relative order. *)
Definition of_type (type : RecordType) (items : list RecordObj) : list RecordObj :=
  filter (λ r, constructor r = type) items.

Definition groups (items : list RecordObj) : list (RecordType * list RecordObj) :=
  (λ type, (type, of_type type items)) <$> first_seen (constructor <$> items).

(** What a map of the object store holds, with the array references
    followed. *)
Definition grouping_of (w : World) (entries : list (RecordType * nat))
  : list (RecordType * list RecordObj) :=
  (λ e, (e.1, default [] (arrays w !! e.2))) <$> entries.

Definition grouping (w : World) (map : nat) : list (RecordType * list RecordObj) :=
  grouping_of w (default [] (maps w !! map)).

(** One step of the grouping loop on the dereferenced map. *)
Fixpoint push_group (g : list (RecordType * list RecordObj)) (item : RecordObj)
  : list (RecordType * list RecordObj) :=
  match g with
  | [] => [(constructor item, [item])]
  | (k, items) :: rest =>
      if decide (k = constructor item) then (k, items ++ [item]) :: rest
      else (k, items) :: push_group rest item
  end.

(** A map whose arrays were allocated one after the other from [base]. *)
Definition layout (base : nat) (g : list (RecordType * list RecordObj))
  : list (RecordType * nat) :=
  zip g.*1 (seq base (length g)).

(** The records [commit] queues for update. *)
Definition keeps (this : Adapter) (relationships : Relationships) (record : RecordObj)
  : bool :=
  isDirty record || shouldCommit this record relationships.

Definition kept (this : Adapter) (relationships : Relationships)
    (records : list RecordObj) : list RecordObj :=
  filter (λ r, keeps this relationships r = true) records.

(** The calls of the filtering loop of [commit]. *)
Definition filter_events (this : Adapter) (store : Store)
    (relationships : Relationships) (records : list RecordObj) : list Event :=
  records ≫= λ record,
    if isDirty record then []
    else CallShouldCommit record relationships ::
         (if shouldCommit this record relationships then []
          else [CallDidUpdateRecord store record]).

(** One of the three dispatch blocks of [commit]. *)
Definition phase (mk : RecordType → nat → Event) (enumerable : Enumerable)
  : St World unit :=
  m ← groupByType enumerable;
  map_forEach m (λ type array, copy ← slice array; call (mk type copy)).

(** The calls [materialize] makes for one association. *)
Definition association_calls (hash : gmap string value)
    (entry : string * AssociationMeta) : list RecordCall :=
  if decide (kind entry.2 = "hasMany")
  then [RecMaterializeHasMany entry.1 (hash_get hash entry.1)]
  else if decide (kind entry.2 = "belongsTo")
  then [RecMaterializeBelongsTo entry.1 (hash_get hash entry.1)]
  else [].

(** All calls of [materialize] on a record of the given type. *)
Definition materialize_calls (type : RecordType) (hash : gmap string value)
  : list RecordCall :=
  RecMaterializeId (extractId type hash)
    :: ((λ name, RecMaterializeAttribute name (hash_get hash name)) <$> attribute_names type)
    ++ (associationsByName type ≫= association_calls hash).

Definition apply_calls (r : RecordObj) (cs : list RecordCall) : RecordObj :=
  foldl (λ r c, record_apply c r) r cs.

(** The field a call writes, if it writes one. *)
Definition written_field (c : RecordCall) : option string :=
  match c with
  | RecMaterializeId _ => None
  | RecMaterializeAttribute name _
  | RecMaterializeHasMany name _
  | RecMaterializeBelongsTo name _ => Some name
  end.

(** The value a call hands to the record. *)
Definition call_value (c : RecordCall) : value :=
  match c with
  | RecMaterializeId v
  | RecMaterializeAttribute _ v
  | RecMaterializeHasMany _ v
  | RecMaterializeBelongsTo _ v => v
  end.

(** What [materialize] reads from the payload for the identifier ([None])
    or for a field. *)
Definition payload_value (hash : gmap string value) (field : option string) : value :=
  match field with
  | None => hash_get hash "id"
  | Some name => hash_get hash name
  end.

(** What [hash[name]] yields for a name the payload does not own: the
    inherited property, or [undefined]. *)
Definition inherited_value (name : string) : value :=
  default VUndefined (Object_prototype !! name).


(** The claim that every declared field missing from the payload is still
    handed to the record, without a value. *)
Definition absent_field_delegated (record : RecordObj) (hash : gmap string value)
    (name : string) : Prop :=
  name ∈ attribute_names (constructor record)
    ∨ name ∈ association_names (constructor record) →
  hash !! name = None →
  RecMaterializeAttribute name VUndefined ∈ calls (materialize record hash)
  ∨ RecMaterializeHasMany name VUndefined ∈ calls (materialize record hash)
  ∨ RecMaterializeBelongsTo name VUndefined ∈ calls (materialize record hash).

(** Recognizers for the calls of [commit]. *)
Definition is_createRecords (e : Event) : bool :=
  match e with CallCreateRecords _ _ _ => true | _ => false end.
Definition is_deleteRecords (e : Event) : bool :=
  match e with CallDeleteRecords _ _ _ => true | _ => false end.
Definition is_updateRecords_for (type : RecordType) (e : Event) : bool :=
  match e with
  | CallUpdateRecords _ t _ => bool_decide (t = type)
  | _ => false
  end.
Definition is_batched (e : Event) : bool :=
  match e with
  | CallCreateRecords _ _ _ | CallUpdateRecords _ _ _ | CallDeleteRecords _ _ _ => true
  | _ => false
  end.
Definition is_didUpdateRecord_of (record : RecordObj) (e : Event) : bool :=
  match e with
  | CallDidUpdateRecord _ r => bool_decide (r = record)
  | _ => false
  end.

(** Sample data. *)
Definition Post : RecordType :=
  {| type_guid := 1;
     attributes := [("title", {| attr_type := "string" |})];
     associationsByName :=
       [("comments", {| kind := "hasMany" |});
        ("author", {| kind := "belongsTo" |});
        ("tags", {| kind := "manyToMany" |})] |}.

Definition Comment : RecordType :=
  {| type_guid := 2;
     attributes := [("body", {| attr_type := "string" |})];
     associationsByName := [("post", {| kind := "belongsTo" |})] |}.

Definition new_record (g : nat) (type : RecordType) (dirty : bool) : RecordObj :=
  {| guid := g; constructor := type; isDirty := dirty;
     rec_id := VUndefined; data := ∅ |}.

(** A type with an attribute that shares its name with a property every
    object inherits. *)
Definition Ticket : RecordType :=
  {| type_guid := 3;
     attributes := [("toString", {| attr_type := "string" |})];
     associationsByName := [] |}.


(** An adapter that never commits a clean record. *)
Definition lazy_adapter : Adapter := {| shouldCommit := λ record relationships, false |}.

(** The callback of [map.forEach] in a dispatch block. *)
Definition dispatch_entry (mk : RecordType → nat → Event) (entry : RecordType * nat)
  : St World unit :=
  copy ← slice entry.2; call (mk entry.1 copy).

(** A list of (type, array reference) pairs holds the groups [g]. *)
Definition holds (w : World) (entries : list (RecordType * nat))
    (g : list (RecordType * list RecordObj)) : Prop :=
  Forall2 (λ e x, e.1 = x.1 ∧ arrays w !! e.2 = Some x.2) entries g.

(** The calls a computation adds to the log when started in [w]. *)
Definition calls_of {A} (c : St World A) (w : World) : list Event :=
  drop (length (trace w)) (trace (c w).2).

(** The callback of the loop of [groupByType]. *)
Definition group_item (map : nat) (item : RecordObj) : St World unit :=
  arr ← map_get map (constructor item);
  pushObject arr item.

(** Further recognizers and predicates on the call log. *)
Definition is_shouldCommit (e : Event) : bool :=
  match e with CallShouldCommit _ _ => true | _ => false end.
Definition is_didUpdateRecord (e : Event) : bool :=
  match e with CallDidUpdateRecord _ _ => true | _ => false end.

(** The arrays handed to the batched calls of a log. *)
Definition batched_arrays (evs : list Event) : list nat :=
  evs ≫= λ e,
    match e with
    | CallCreateRecords _ _ arr | CallUpdateRecords _ _ arr
    | CallDeleteRecords _ _ arr => [arr]
    | _ => []
    end.

(** A call [commit] may make, given what it was asked to commit: a
    question about a clean record of [updated], the report of a skipped
    one, or a batched call on the same store. *)
Definition commit_call_allowed (this : Adapter) (store : Store)
    (commitDetails : CommitDetails) (relationships : Relationships) (e : Event)
  : Prop :=
  match e with
  | CallShouldCommit r rel =>
      rel = relationships ∧ r ∈ updated commitDetails ∧ isDirty r = false
  | CallDidUpdateRecord s r =>
      s = store ∧ r ∈ updated commitDetails ∧ isDirty r = false
      ∧ shouldCommit this r relationships = false
  | CallCreateRecords s _ _ | CallUpdateRecords s _ _ | CallDeleteRecords s _ _ =>
      s = store
  | _ => False
  end.

(** The array of a batched call holds exactly the records of the call's
    type, out of the collection the call is for. *)
Definition batch_exact (w : World) (store : Store)
    (for_create for_update for_delete : list RecordObj) (e : Event) : Prop :=
  let exact (s : Store) (type : RecordType) (arr : nat) (source : list RecordObj) :=
    s = store ∧ type ∈ constructor <$> source
    ∧ arrays w !! arr = Some (of_type type source)
    ∧ of_type type source ≠ [] in
  match e with
  | CallCreateRecords s type arr => exact s type arr for_create
  | CallUpdateRecords s type arr => exact s type arr for_update
  | CallDeleteRecords s type arr => exact s type arr for_delete
  | _ => True
  end.

(** Running the default batched method on the array of a batched call
    issues one single-record call per record of the group. *)
Definition default_replays (w : World)
    (for_create for_update for_delete : list RecordObj) (e : Event) : Prop :=
  match e with
  | CallCreateRecords s type arr =>
      calls_of (createRecords s type (EmberArray arr)) w
      = CallCreateRecord s type <$> of_type type for_create
  | CallUpdateRecords s type arr =>
      calls_of (updateRecords s type (EmberArray arr)) w
      = CallUpdateRecord s type <$> of_type type for_update
  | CallDeleteRecords s type arr =>
      calls_of (deleteRecords s type (EmberArray arr)) w
      = CallDeleteRecord s type <$> of_type type for_delete
  | _ => True
  end.

(** The association has a kind [materialize] dispatches on. *)
Definition known_kind (meta : AssociationMeta) : Prop :=
  kind meta = "hasMany" ∨ kind meta = "belongsTo".

(** The payload carries a value for the identifier and for every field
    [materialize] hands to a record of the type. *)
Definition payload_complete (type : RecordType) (hash : gmap string value) : Prop :=
  (∃ v, hash !! "id" = Some v ∧ v ≠ VUndefined)
  ∧ ∀ name,
      name ∈ attribute_names type
        ∨ (∃ meta, (name, meta) ∈ associationsByName type ∧ known_kind meta) →
      ∃ v, hash !! name = Some v ∧ v ≠ VUndefined.

(** ** The embedding at work *)

Example materialize_sample :
  materialize (new_record 1 Post false)
    {[ "id" := VStr "42"; "title" := VStr "x"; "author" := VNum 7 ]}
  = {| self := {| guid := 1; constructor := Post; isDirty := false;
                  rec_id := VStr "42";
                  data := {[ "title" := VStr "x"; "comments" := VUndefined;
                             "author" := VNum 7 ]} |};
       calls := [RecMaterializeId (VStr "42");
                 RecMaterializeAttribute "title" (VStr "x");
                 RecMaterializeHasMany "comments" VUndefined;
                 RecMaterializeBelongsTo "author" (VNum 7)] |}.
Proof. by vm_compute. Qed.

Example groupByType_sample :
  let p1 := new_record 1 Post true in
  let c2 := new_record 2 Comment true in
  let p3 := new_record 3 Post false in
  let run := groupByType (OrderedSet [p1; c2; p3]) empty_world in
  grouping run.2 run.1 = [(Post, [p1; p3]); (Comment, [c2])].
Proof. by vm_compute. Qed.

Example commit_sample :
  let p1 := new_record 1 Post true in
  let c2 := new_record 2 Comment true in
  let p3 := new_record 3 Post false in
  let c4 := new_record 4 Comment false in
  let p5 := new_record 5 Post true in
  let details := {| created := [p1; c2]; updated := [p3; c4; p5]; deleted := [c4] |} in
  let run := commit lazy_adapter 0 details 7 empty_world in
  trace run.2
  = [CallShouldCommit p3 7; CallDidUpdateRecord 0 p3;
     CallShouldCommit c4 7; CallDidUpdateRecord 0 c4;
     CallCreateRecords 0 Post 3; CallCreateRecords 0 Comment 4;
     CallUpdateRecords 0 Post 6;
     CallDeleteRecords 0 Comment 8]
  ∧ arrays run.2 = [[p5]; [p1]; [c2]; [p1]; [c2]; [p5]; [p5]; [c4]; [c4]]
  ∧ maps run.2 = [[(Post, 1); (Comment, 2)]; [(Post, 5)]; [(Comment, 7)]].
Proof. by vm_compute. Qed.

Example findMany_sample :
  calls_of (findMany 0 Post [VNum 1; VNum 2; VNum 3]) empty_world
  = [CallFind 0 Post (VNum 1); CallFind 0 Post (VNum 2); CallFind 0 Post (VNum 3)].
Proof. by vm_compute. Qed.

(** ** The grouping, on lists *)

Lemma first_seen_elem (l : list RecordType) (x : RecordType) :
  x ∈ first_seen l ↔ x ∈ l.
Proof.
  induction l as [|a l IH]; simpl; [done|].
  rewrite !elem_of_cons, list_elem_of_filter, IH.
  destruct (decide (x = a)); naive_solver.
Qed.

Lemma first_seen_NoDup (l : list RecordType) : NoDup (first_seen l).
Proof.
  induction l as [|a l IH]; simpl; [constructor|].
  constructor.
  - rewrite list_elem_of_filter. naive_solver.
  - by apply NoDup_filter.
Qed.

Lemma first_seen_snoc (l : list RecordType) (x : RecordType) :
  first_seen (l ++ [x]) =
  if decide (x ∈ l) then first_seen l else first_seen l ++ [x].
Proof.
  induction l as [|a l IH]; simpl; [done|].
  rewrite IH. destruct (decide (x ∈ l)) as [Hin|Hin].
    + rewrite decide_True by (by right). done.
    + rewrite filter_app. destruct (decide (x = a)) as [->|Hne].
      * rewrite decide_True by (by left).
        rewrite filter_cons_False by naive_solver.
        rewrite filter_nil. by rewrite app_nil_r.
      * rewrite decide_False by (rewrite elem_of_cons; naive_solver).
        rewrite filter_cons_True by done. by rewrite filter_nil.
Qed.

Lemma of_type_snoc (type : RecordType) (items : list RecordObj) (item : RecordObj) :
  of_type type (items ++ [item]) =
  if decide (constructor item = type) then of_type type items ++ [item]
  else of_type type items.
Proof.
  unfold of_type. rewrite filter_app. destruct (decide _).
  - by rewrite filter_cons_True, filter_nil.
  - by rewrite filter_cons_False, filter_nil, app_nil_r.
Qed.

Lemma of_type_absent (type : RecordType) (items : list RecordObj) :
  type ∉ constructor <$> items → of_type type items = [].
Proof.
  intros Hnot. unfold of_type. induction items as [|r items IH]; [done|].
  rewrite fmap_cons, not_elem_of_cons in Hnot. destruct Hnot as [Hne Hnot].
  rewrite filter_cons_False by naive_solver. by apply IH.
Qed.

Lemma push_group_fmap (keys : list RecordType) (items : list RecordObj)
    (item : RecordObj) :
  NoDup keys →
  push_group ((λ type, (type, of_type type items)) <$> keys) item =
  if decide (constructor item ∈ keys)
  then (λ type, (type, of_type type (items ++ [item]))) <$> keys
  else ((λ type, (type, of_type type (items ++ [item]))) <$> keys)
         ++ [(constructor item, [item])].
Proof.
  induction 1 as [|k keys Hk Hnd IH]; [done|].
  rewrite !fmap_cons. cbn [push_group].
  destruct (decide (k = constructor item)) as [->|Hne].
    + rewrite decide_True by (by left).
      rewrite of_type_snoc, decide_True by done. f_equal.
      apply list_fmap_ext. intros i type Hi. f_equal.
      rewrite of_type_snoc, decide_False; [done|].
      intros <-. apply Hk. by eapply list_elem_of_lookup_2.
    + rewrite IH, (of_type_snoc k).
      rewrite (decide_False (P := constructor item = k)) by congruence.
      destruct (decide (constructor item ∈ keys)) as [Hin|Hin].
      * rewrite decide_True by (by right). done.
      * rewrite decide_False by (rewrite elem_of_cons; naive_solver). done.
Qed.

Lemma groups_snoc (items : list RecordObj) (item : RecordObj) :
  groups (items ++ [item]) = push_group (groups items) item.
Proof.
  unfold groups. rewrite push_group_fmap by apply first_seen_NoDup.
  rewrite (fmap_app constructor).
  change (constructor <$> [item]) with [constructor item].
  rewrite first_seen_snoc.
  rewrite (decide_ext _ _ _ _ (first_seen_elem (constructor <$> items) (constructor item))).
  destruct (decide _) as [Hin|Hin]; [done|].
  rewrite fmap_app. simpl. f_equal.
  rewrite of_type_snoc, decide_True by done.
  by rewrite of_type_absent.
Qed.

Lemma foldl_push_group (items prefix : list RecordObj) :
  foldl push_group (groups prefix) items = groups (prefix ++ items).
Proof.
  revert prefix. induction items as [|r items IH]; intros prefix; simpl.
  - by rewrite app_nil_r.
  - rewrite <- groups_snoc, IH. by rewrite <- app_assoc.
Qed.

(** ** Running the state monad *)

Lemma bind_run {S A B} (c : St S A) (f : A → St S B) (s : S) :
  (c ≫= f) s = f (c s).1 (c s).2.
Proof. unfold mbind, St_bind. by destruct (c s). Qed.

Lemma forEach_cons {S A} (x : A) (l : list A) (f : A → St S unit) (s : S) :
  forEach (x :: l) f s = forEach l f (f x s).2.
Proof. simpl. by rewrite bind_run. Qed.

Lemma forEach_ext {S A} (l : list A) (f g : A → St S unit) (s : S) :
  (∀ x s, f x s = g x s) → forEach l f s = forEach l g s.
Proof.
  intros Hfg. revert s. induction l as [|x l IH]; intros s; [done|].
  by rewrite !forEach_cons, Hfg, IH.
Qed.

(** ** The grouping loop on the object store *)

Lemma layout_cons (b : nat) (k : RecordType) (items : list RecordObj)
    (g : list (RecordType * list RecordObj)) :
  layout b ((k, items) :: g) = (k, b) :: layout (S b) g.
Proof. done. Qed.

Lemma layout_snoc (b : nat) (g : list (RecordType * list RecordObj))
    (k : RecordType) (items : list RecordObj) :
  layout b (g ++ [(k, items)]) = layout b g ++ [(k, b + length g)].
Proof.
  revert b. induction g as [|[k' items'] g IH]; intros b.
  - unfold layout. simpl. by rewrite Nat.add_0_r.
  - rewrite <- app_comm_cons, !layout_cons, IH. simpl.
    by rewrite Nat.add_succ_r.
Qed.

Lemma layout_keys (b : nat) (g : list (RecordType * list RecordObj)) :
  (layout b g).*1 = g.*1.
Proof.
  unfold layout. apply fst_zip. rewrite length_fmap, length_seq. lia.
Qed.

Lemma layout_addresses (b : nat) (g : list (RecordType * list RecordObj)) :
  (layout b g).*2 = seq b (length g).
Proof.
  unfold layout. apply snd_zip. rewrite length_fmap, length_seq. lia.
Qed.

Lemma layout_length (b : nat) (g : list (RecordType * list RecordObj)) :
  length (layout b g) = length g.
Proof. by rewrite <- (length_fmap fst), layout_keys, length_fmap. Qed.

Lemma group_step_found (item : RecordObj) (g : list (RecordType * list RecordObj)) :
  ∀ (b : nat) (pre : list (list RecordObj)) (a : nat),
    length pre = b →
    entry_find (constructor item) (layout b g) = Some a →
    alter (λ items, items ++ [item]) a (pre ++ g.*2) = pre ++ (push_group g item).*2
    ∧ layout b (push_group g item) = layout b g.
Proof.
  induction g as [|[k items] g IH]; intros b pre a Hlen; [done|].
  rewrite layout_cons. cbn [entry_find push_group].
  destruct (decide (k = constructor item)) as [Hk|Hk].
  - intros [= <-]. split; [|done].
    rewrite !fmap_cons. cbn [snd].
    replace b with (length pre + 0) by lia.
    by rewrite alter_app_r.
  - intros Hfind.
    destruct (IH (S b) (pre ++ [items]) a) as [Harr Hlay]; [|done|].
    { rewrite length_app. simpl. lia. }
    rewrite !layout_cons, Hlay. split; [|done].
    rewrite !fmap_cons. cbn [snd].
    rewrite <- !app_assoc in Harr. exact Harr.
Qed.

Lemma group_step_missing (item : RecordObj) (g : list (RecordType * list RecordObj)) :
  ∀ b : nat,
    entry_find (constructor item) (layout b g) = None →
    push_group g item = g ++ [(constructor item, [item])].
Proof.
  induction g as [|[k items] g IH]; intros b; [done|].
  rewrite layout_cons. cbn [entry_find push_group].
  destruct (decide (k = constructor item)); [done|].
  intros Hfind. by rewrite (IH (S b)).
Qed.

Lemma alter_as_insert {A} (f : A → A) (l : list A) (i : nat) (x : A) :
  l !! i = Some x → alter f i l = <[i := f x]> l.
Proof.
  revert i. induction l as [|y l IH]; intros [|i] Hi; try done.
  - simpl in Hi. by injection Hi as ->.
  - simpl in *. f_equal. by apply IH.
Qed.

Lemma group_item_run (w : World) (m : nat) (pre : list (list RecordObj))
    (g : list (RecordType * list RecordObj)) (item : RecordObj) :
  maps w !! m = Some (layout (length pre) g) →
  arrays w = pre ++ g.*2 →
  group_item m item w =
    (tt, {| arrays := pre ++ (push_group g item).*2;
            maps := <[m := layout (length pre) (push_group g item)]> (maps w);
            trace := trace w |}).
Proof.
  intros Hm Harr. unfold group_item, map_get.
  rewrite !bind_run. unfold map_entries, gets. cbn [fst snd].
  rewrite Hm.
  change (default [] (Some (layout (length pre) g))) with (layout (length pre) g).
  destruct (entry_find (constructor item) (layout (length pre) g)) as [a|] eqn:Hfind.
  - destruct (group_step_found item g (length pre) pre a eq_refl Hfind) as [Ha Hl].
    unfold mret, St_ret, pushObject, modify. cbn [fst snd arrays maps trace].
    rewrite Harr, Ha, Hl, (list_insert_id _ _ _ Hm). done.
  - rewrite (group_step_missing item g _ Hfind).
    rewrite !bind_run.
    unfold Ember_A, new_array, map_set_new, pushObject, modify, mret, St_ret.
    cbn [fst snd arrays maps trace].
    rewrite (alter_as_insert _ _ _ _ Hm), layout_snoc.
    rewrite Harr, length_app, length_fmap.
    rewrite fmap_app, app_assoc.
    replace (length pre + length g) with (length (pre ++ g.*2) + 0)
      by (rewrite length_app, length_fmap; lia).
    rewrite alter_app_r.
    rewrite length_app, length_fmap, Nat.add_0_r. done.
Qed.

Lemma group_loop_run (items : list RecordObj) :
  ∀ (w : World) (m : nat) (pre : list (list RecordObj))
    (g : list (RecordType * list RecordObj)),
    maps w !! m = Some (layout (length pre) g) →
    arrays w = pre ++ g.*2 →
    forEach items (group_item m) w =
      (tt, {| arrays := pre ++ (foldl push_group g items).*2;
              maps := <[m := layout (length pre) (foldl push_group g items)]> (maps w);
              trace := trace w |}).
Proof.
  induction items as [|item items IH]; intros w m pre g Hm Harr.
  - simpl. unfold mret, St_ret. rewrite (list_insert_id _ _ _ Hm), <- Harr.
    by destruct w.
  - rewrite forEach_cons, (group_item_run w m pre g item Hm Harr). cbn [snd].
    rewrite (IH _ m pre (push_group g item)); cbn [arrays maps trace].
    + by rewrite list_insert_insert_eq.
    + apply list_lookup_insert_eq. by eapply lookup_lt_Some.
    + done.
Qed.

(** [groupByType] leaves one new map behind, bound to freshly allocated
    arrays that hold the groups. *)
Lemma groupByType_run (enumerable : Enumerable) (items : list RecordObj) (w : World) :
  enumerable_items enumerable w = (items, w) →
  groupByType enumerable w =
    (length (maps w),
     {| arrays := arrays w ++ (groups items).*2;
        maps := maps w ++ [layout (length (arrays w)) (groups items)];
        trace := trace w |}).
Proof.
  intros Hitems. unfold groupByType.
  rewrite bind_run. unfold MapWithDefault_create. cbn [fst snd].
  rewrite bind_run.
  set (w1 := {| arrays := arrays w; maps := maps w ++ [[]]; trace := trace w |}).
  assert (enumerable_items enumerable w1 = (items, w1)) as ->.
  { destruct enumerable; [by injection Hitems as ->|].
    unfold enumerable_items, array_items, gets in *. simpl.
    by injection Hitems as ->. }
  cbn [fst snd]. rewrite bind_run.
  change (forEach items _ w1) with (forEach items (group_item (length (maps w))) w1).
  rewrite (group_loop_run items w1 (length (maps w)) (arrays w) []).
  - unfold mret, St_ret. cbn [fst snd arrays maps trace].
    change (foldl push_group [] items) with (foldl push_group (groups []) items).
    rewrite foldl_push_group. simpl app. unfold w1. cbn [maps trace].
    replace (length (maps w)) with (length (maps w) + 0) at 2 by lia.
    by rewrite insert_app_r.
  - unfold w1. cbn [maps]. rewrite lookup_app_r by lia.
    by rewrite Nat.sub_diag.
  - unfold w1. cbn [arrays]. by rewrite app_nil_r.
Qed.

(** ** The dispatch loop *)

Lemma layout_deref (g : list (RecordType * list RecordObj)) :
  ∀ pre : list (list RecordObj),
    (λ e, default [] ((pre ++ g.*2) !! e.2)) <$> layout (length pre) g = g.*2.
Proof.
  induction g as [|[k items] g IH]; intros pre; [done|].
  rewrite layout_cons, !fmap_cons. cbn [snd]. f_equal.
  - by rewrite list_lookup_middle.
  - specialize (IH (pre ++ [items])).
    rewrite <- app_assoc, length_app, Nat.add_1_r in IH. exact IH.
Qed.

Lemma dispatch_run (mk : RecordType → nat → Event) (entries : list (RecordType * nat)) :
  ∀ w : World,
    Forall (λ e, e.2 < length (arrays w)) entries →
    forEach entries (dispatch_entry mk) w =
      (tt, {| arrays := arrays w ++ ((λ e, default [] (arrays w !! e.2)) <$> entries);
              maps := maps w;
              trace := trace w ++
                ((λ e, mk e.1 e.2) <$>
                   zip entries.*1 (seq (length (arrays w)) (length entries))) |}).
Proof.
  induction entries as [|[k v] entries IH]; intros w Hvalid.
  - simpl. unfold mret, St_ret. rewrite !app_nil_r. by destruct w.
  - apply Forall_cons in Hvalid as [Hv Hvalid]. simpl in Hv.
    rewrite forEach_cons. unfold dispatch_entry at 2, slice.
    rewrite !bind_run. unfold array_items, gets, new_array, call, modify.
    cbn [fst snd arrays maps trace].
    rewrite IH; cbn [arrays maps trace].
    + f_equal. f_equal.
      * rewrite <- app_assoc. f_equal. simpl. f_equal.
        apply Forall_fmap_ext. eapply Forall_impl; [exact Hvalid|].
        intros e He. simpl. by rewrite lookup_app_l.
      * rewrite <- app_assoc, length_app, Nat.add_1_r. done.
    + eapply Forall_impl; [exact Hvalid|]. intros e He. simpl in *.
      rewrite length_app. lia.
Qed.

Lemma phase_run (mk : RecordType → nat → Event) (enumerable : Enumerable)
    (items : list RecordObj) (w : World) :
  enumerable_items enumerable w = (items, w) →
  phase mk enumerable w =
    (tt, {| arrays := arrays w ++ (groups items).*2 ++ (groups items).*2;
            maps := maps w ++ [layout (length (arrays w)) (groups items)];
            trace := trace w ++
              ((λ e, mk e.1 e.2) <$>
                 layout (length (arrays w) + length (groups items)) (groups items)) |}).
Proof.
  intros Hitems. unfold phase.
  rewrite bind_run, (groupByType_run enumerable items w Hitems). cbn [fst snd].
  unfold map_forEach. rewrite bind_run. unfold map_entries, gets.
  cbn [fst snd arrays maps trace].
  rewrite lookup_app_r, Nat.sub_diag by lia.
  change (default [] ([layout (length (arrays w)) (groups items)] !! 0))
    with (layout (length (arrays w)) (groups items)).
  erewrite (forEach_ext _ _ (dispatch_entry mk)); [|by intros [??] ?].
  rewrite dispatch_run; cbn [arrays maps trace].
  - rewrite layout_deref, layout_keys, layout_length, <- app_assoc.
    rewrite length_app, length_fmap. done.
  - apply Forall_forall. intros e He.
    assert (e.2 ∈ (layout (length (arrays w)) (groups items)).*2) as Hin
      by (by apply list_elem_of_fmap_2).
    rewrite layout_addresses, elem_of_seq in Hin.
    rewrite length_app, length_fmap. lia.
Qed.

(** ** The filtering loop of [commit] *)

Lemma filter_loop_run (this : Adapter) (store : Store) (relationships : Relationships)
    (records : list RecordObj) :
  ∀ (w : World) (pre : list (list RecordObj)) (acc : list RecordObj),
    arrays w = pre ++ [acc] →
    forEach records (commit_filter this store relationships (length pre)) w =
      (tt, {| arrays := pre ++ [acc ++ kept this relationships records];
              maps := maps w;
              trace := trace w ++ filter_events this store relationships records |}).
Proof.
  induction records as [|r records IH]; intros w pre acc Harr.
  - simpl. unfold mret, St_ret. rewrite !app_nil_r, <- Harr. by destruct w.
  - rewrite forEach_cons.
    assert (∀ w0 : World, arrays w0 = pre ++ [acc] →
              arrays (pushObject (length pre) r w0).2 = pre ++ [acc ++ [r]]) as Hpush.
    { intros w0 Hw0. unfold pushObject, modify. cbn [snd arrays]. rewrite Hw0.
      replace (length pre) with (length pre + 0) by lia. by rewrite alter_app_r. }
    unfold kept, filter_events, keeps in *.
    rewrite bind_cons.
    unfold commit_filter at 2.
    destruct (isDirty r) eqn:Hd; cbn [negb orb].
    + rewrite (IH _ pre (acc ++ [r])) by (by apply Hpush).
      rewrite filter_cons_True by (by rewrite Hd).
      unfold pushObject, modify. cbn [snd maps trace].
      rewrite <- app_assoc. reflexivity.
    + unfold call_shouldCommit. rewrite !bind_run.
      unfold mret, St_ret, call at 2, modify. cbn [fst snd].
      destruct (shouldCommit this r relationships) eqn:Hs; cbn [negb].
      * rewrite (IH _ pre (acc ++ [r])) by (by apply Hpush).
        rewrite filter_cons_True by (by rewrite Hd, Hs).
        unfold call, pushObject, modify. cbn [snd arrays maps trace].
        by rewrite <- !app_assoc.
      * rewrite (IH _ pre acc) by done.
        rewrite filter_cons_False by (by rewrite Hd, Hs).
        unfold call, modify. cbn [snd arrays maps trace].
        by rewrite <- !app_assoc.
Qed.

(** ** [commit] as a whole *)

Lemma commit_unfold (this : Adapter) (store : Store) (commitDetails : CommitDetails)
    (relationships : Relationships) :
  commit this store commitDetails relationships =
  (arr ← Ember_A;
   forEach (updated commitDetails) (commit_filter this store relationships arr) ;;
   phase (CallCreateRecords store) (OrderedSet (created commitDetails)) ;;
   phase (CallUpdateRecords store) (EmberArray arr) ;;
   phase (CallDeleteRecords store) (OrderedSet (deleted commitDetails))).
Proof. by destruct commitDetails. Qed.

Lemma holds_layout (w : World) (g : list (RecordType * list RecordObj)) :
  ∀ (b : nat) (pre post : list (list RecordObj)),
    arrays w = pre ++ g.*2 ++ post →
    b = length pre →
    holds w (layout b g) g.
Proof.
  unfold holds. induction g as [|[k items] g IH]; intros b pre post Harr ->.
  - constructor.
  - rewrite layout_cons. constructor.
    + split; [done|]. rewrite Harr. simpl. by rewrite list_lookup_middle.
    + apply (IH _ (pre ++ [items]) post).
      * rewrite Harr, <- app_assoc. done.
      * rewrite length_app. simpl. lia.
Qed.

Local Ltac solve_layout :=
  rewrite ?app_nil_r, <- ?app_assoc, ?length_app, ?length_fmap;
  first [ reflexivity | simpl; lia ].

Lemma commit_spec (this : Adapter) (store : Store) (commitDetails : CommitDetails)
    (relationships : Relationships) (w : World) :
  let w' := (commit this store commitDetails relationships w).2 in
  let queued := kept this relationships (updated commitDetails) in
  ∃ mc mu md cc cu cdl : list (RecordType * nat),
    maps w' = maps w ++ [mc; mu; md]
    ∧ trace w' =
        trace w ++ filter_events this store relationships (updated commitDetails)
          ++ ((λ e, CallCreateRecords store e.1 e.2) <$> cc)
          ++ ((λ e, CallUpdateRecords store e.1 e.2) <$> cu)
          ++ ((λ e, CallDeleteRecords store e.1 e.2) <$> cdl)
    ∧ holds w' mc (groups (created commitDetails))
    ∧ holds w' cc (groups (created commitDetails))
    ∧ holds w' mu (groups queued)
    ∧ holds w' cu (groups queued)
    ∧ holds w' md (groups (deleted commitDetails))
    ∧ holds w' cdl (groups (deleted commitDetails))
    ∧ (∀ a, a ∈ (cc ++ cu ++ cdl).*2 → a ∉ (mc ++ mu ++ md).*2).
Proof.
  intros w' queued. subst w'.
  rewrite commit_unfold, bind_run.
  unfold Ember_A, new_array. cbn [fst snd].
  rewrite bind_run.
  rewrite (filter_loop_run this store relationships _ _ (arrays w) []) by done.
  cbn [fst snd app arrays maps trace]. fold queued.
  rewrite bind_run.
  rewrite (phase_run (CallCreateRecords store) _ (created commitDetails)) by done.
  cbn [fst snd arrays maps trace].
  rewrite bind_run.
  rewrite (phase_run (CallUpdateRecords store) _ queued).
  2:{ unfold enumerable_items, array_items, gets. cbn [arrays].
      rewrite <- app_assoc. cbn [app]. by rewrite list_lookup_middle. }
  cbn [fst snd arrays maps trace].
  rewrite (phase_run (CallDeleteRecords store) _ (deleted commitDetails)) by done.
  cbn [fst snd arrays maps trace].
  set (Gc := groups (created commitDetails)).
  set (Gu := groups queued).
  set (Gd := groups (deleted commitDetails)).
  set (A := arrays w ++ [queued]).
  match goal with |- context [holds ?w0 _ _] => set (w1 := w0) end.
  eexists _, _, _, _, _, _.
  split; [by rewrite <- !app_assoc|].
  split; [by rewrite <- !app_assoc|].
  assert (∀ g b pre post,
            (((A ++ Gc.*2 ++ Gc.*2) ++ Gu.*2 ++ Gu.*2) ++ Gd.*2 ++ Gd.*2)
              = pre ++ g.*2 ++ post →
            b = length pre → holds w1 (layout b g) g) as Hholds.
  { intros g b pre post Harr Hb. by apply (holds_layout w1 g b pre post). }
  repeat split.
  - apply (Hholds Gc _ A (Gc.*2 ++ Gu.*2 ++ Gu.*2 ++ Gd.*2 ++ Gd.*2)); solve_layout.
  - apply (Hholds Gc _ (A ++ Gc.*2) (Gu.*2 ++ Gu.*2 ++ Gd.*2 ++ Gd.*2)); solve_layout.
  - apply (Hholds Gu _ (A ++ Gc.*2 ++ Gc.*2) (Gu.*2 ++ Gd.*2 ++ Gd.*2)); solve_layout.
  - apply (Hholds Gu _ ((A ++ Gc.*2 ++ Gc.*2) ++ Gu.*2) (Gd.*2 ++ Gd.*2)); solve_layout.
  - apply (Hholds Gd _ ((A ++ Gc.*2 ++ Gc.*2) ++ Gu.*2 ++ Gu.*2) (Gd.*2)); solve_layout.
  - apply (Hholds Gd _ (((A ++ Gc.*2 ++ Gc.*2) ++ Gu.*2 ++ Gu.*2) ++ Gd.*2) []);
      solve_layout.
  - intros a Hc Hm.
    rewrite !fmap_app, !elem_of_app, !layout_addresses, !elem_of_seq in Hc, Hm.
    rewrite !length_app, !length_fmap in Hc, Hm. lia.
Qed.

(** ** Materialization *)

Lemma invoke_run (c : RecordCall) (s : MatState) :
  invoke c s = (tt, {| self := apply_calls (self s) [c]; calls := calls s ++ [c] |}).
Proof. done. Qed.

Lemma apply_calls_app (r : RecordObj) (cs ds : list RecordCall) :
  apply_calls r (cs ++ ds) = apply_calls (apply_calls r cs) ds.
Proof. apply foldl_app. Qed.

Lemma apply_calls_constructor (cs : list RecordCall) (r : RecordObj) :
  constructor (apply_calls r cs) = constructor r.
Proof.
  revert r. induction cs as [|c cs IH]; intros r; [done|].
  unfold apply_calls in *. simpl. rewrite IH. by destruct c.
Qed.

Lemma forEach_invokes {A} (l : list A) (f : A → St MatState unit)
    (g : A → list RecordCall) :
  (∀ x s, f x s = (tt, {| self := apply_calls (self s) (g x);
                          calls := calls s ++ g x |})) →
  ∀ s, forEach l f s =
       (tt, {| self := apply_calls (self s) (l ≫= g); calls := calls s ++ (l ≫= g) |}).
Proof.
  intros Hf. induction l as [|x l IH]; intros s.
  - simpl. unfold mret, St_ret. rewrite app_nil_r. by destruct s.
  - rewrite forEach_cons, Hf, IH. cbn [snd self calls].
    by rewrite bind_cons, apply_calls_app, app_assoc.
Qed.

Lemma materialize_association_run (hash : gmap string value)
    (entry : string * AssociationMeta) (s : MatState) :
  materialize_association hash entry s =
    (tt, {| self := apply_calls (self s) (association_calls hash entry);
            calls := calls s ++ association_calls hash entry |}).
Proof.
  destruct entry as [name meta]. unfold materialize_association, association_calls.
  cbn [fst snd]. repeat case_decide; try done.
  unfold mret, St_ret. rewrite app_nil_r. by destruct s.
Qed.

Lemma materializeId_run (hash : gmap string value) (s : MatState) :
  materializeId hash s =
    (tt, {| self := apply_calls (self s)
                      [RecMaterializeId (extractId (constructor (self s)) hash)];
            calls := calls s ++
                      [RecMaterializeId (extractId (constructor (self s)) hash)] |}).
Proof. done. Qed.

Lemma materializeAttributes_run (hash : gmap string value) (s : MatState) :
  let cs := (λ name, RecMaterializeAttribute name (hash_get hash name))
              <$> attribute_names (constructor (self s)) in
  materializeAttributes hash s =
    (tt, {| self := apply_calls (self s) cs; calls := calls s ++ cs |}).
Proof.
  intros cs. unfold materializeAttributes. rewrite bind_run.
  unfold gets, eachAttribute. cbn [fst snd].
  rewrite (forEach_invokes _ _
             (λ e, [RecMaterializeAttribute e.1 (hash_get hash e.1)]));
    [|by intros [??] ?].
  assert (attributes (constructor (self s))
            ≫= (λ e, [RecMaterializeAttribute e.1 (hash_get hash e.1)]) = cs) as ->;
    [|done].
  unfold cs, attribute_names.
  induction (attributes (constructor (self s))) as [|e l IH]; [done|].
  by rewrite bind_cons, IH.
Qed.

(** [materialize] makes exactly the calls of [materialize_calls], in that
    order, and the record ends up as those calls leave it. *)
Lemma materialize_run (record : RecordObj) (hash : gmap string value) :
  materialize record hash =
    {| self := apply_calls record (materialize_calls (constructor record) hash);
       calls := materialize_calls (constructor record) hash |}.
Proof.
  unfold materialize, materialize_body.
  rewrite bind_run, materializeId_run. cbn [fst snd self calls].
  rewrite bind_run, materializeAttributes_run. cbn [fst snd self calls].
  rewrite bind_run. unfold gets. cbn [fst snd self calls].
  rewrite (forEach_invokes _ _ (association_calls hash))
    by apply materialize_association_run.
  cbn [snd self calls]. rewrite !apply_calls_constructor.
  unfold materialize_calls. by rewrite <- !apply_calls_app.
Qed.

Lemma RecordObj_eq (r1 r2 : RecordObj) :
  guid r1 = guid r2 → constructor r1 = constructor r2 → isDirty r1 = isDirty r2 →
  rec_id r1 = rec_id r2 → data r1 = data r2 → r1 = r2.
Proof. destruct r1, r2. simpl. by intros -> -> -> -> ->. Qed.

(** The record after a run of calls that all take their value from the
    same source [g]. *)
Lemma apply_calls_spec (g : option string → value) (cs : list RecordCall) :
  (∀ c, c ∈ cs → call_value c = g (written_field c)) →
  ∀ r : RecordObj,
    guid (apply_calls r cs) = guid r
    ∧ isDirty (apply_calls r cs) = isDirty r
    ∧ rec_id (apply_calls r cs) =
        (if decide (None ∈ written_field <$> cs) then g None else rec_id r)
    ∧ ∀ k, data (apply_calls r cs) !! k =
        (if decide (Some k ∈ written_field <$> cs) then Some (g (Some k))
         else data r !! k).
Proof.
  induction cs as [|c cs IH]; intros Hg r.
  - repeat split.
  - destruct (IH (λ c' Hc', Hg c' (list_elem_of_further _ _ _ Hc'))
                (record_apply c r)) as (Hguid & Hdirty & Hid & Hdata).
    pose proof (Hg c (list_elem_of_here _ _)) as Hc.
    change (apply_calls r (c :: cs)) with (apply_calls (record_apply c r) cs).
    rewrite Hguid, Hdirty, Hid. rewrite fmap_cons.
    split; [by destruct c|]. split; [by destruct c|]. split.
    + destruct (decide (None ∈ written_field <$> cs)) as [Hin|Hin].
      * rewrite decide_True by (by right). done.
      * destruct c; cbn [written_field call_value] in *.
        -- rewrite decide_True by (by left). done.
        -- rewrite decide_False by (rewrite elem_of_cons; naive_solver). done.
        -- rewrite decide_False by (rewrite elem_of_cons; naive_solver). done.
        -- rewrite decide_False by (rewrite elem_of_cons; naive_solver). done.
    + intros k. rewrite Hdata.
      destruct (decide (Some k ∈ written_field <$> cs)) as [Hin|Hin].
      * rewrite decide_True by (by right). done.
      * destruct (decide (written_field c = Some k)) as [Hk|Hk].
        -- rewrite decide_True by (rewrite Hk; by left).
           rewrite <- Hk, <- Hc.
           destruct c; cbn [written_field call_value] in *; try done;
             injection Hk as ->; apply lookup_insert_eq.
        -- rewrite decide_False by (rewrite elem_of_cons; naive_solver).
           destruct c; cbn [written_field] in *; try done;
             apply lookup_insert_ne; congruence.
Qed.

Lemma materialize_calls_payload (type : RecordType) (hash : gmap string value)
    (c : RecordCall) :
  c ∈ materialize_calls type hash → call_value c = payload_value hash (written_field c).
Proof.
  unfold materialize_calls.
  rewrite elem_of_cons, elem_of_app, list_elem_of_fmap, list_elem_of_bind.
  intros [->|[(n & -> & _)|([n m] & Hc & _)]]; [done..|].
  unfold association_calls in Hc. cbn [fst snd] in Hc.
  repeat case_decide; set_solver.
Qed.

(** Which calls [materialize] makes for associations. *)
Lemma elem_of_association_calls (type : RecordType) (hash : gmap string value)
    (c : RecordCall) :
  c ∈ associationsByName type ≫= association_calls hash ↔
  ∃ name meta, (name, meta) ∈ associationsByName type
    ∧ ((kind meta = "hasMany" ∧ c = RecMaterializeHasMany name (hash_get hash name))
       ∨ (kind meta = "belongsTo"
          ∧ c = RecMaterializeBelongsTo name (hash_get hash name))).
Proof.
  rewrite list_elem_of_bind. split.
  - intros ([name meta] & Hc & Hin). exists name, meta. split; [done|].
    unfold association_calls in Hc. cbn [fst snd] in Hc.
    repeat case_decide; set_solver.
  - intros (name & meta & Hin & Hc). exists (name, meta). split; [|done].
    unfold association_calls. cbn [fst snd].
    destruct Hc as [[Hk ->]|[Hk ->]]; rewrite Hk; repeat case_decide; set_solver.
Qed.

Lemma materialize_calls_elem (type : RecordType) (hash : gmap string value)
    (c : RecordCall) :
  c ∈ materialize_calls type hash ↔
  c = RecMaterializeId (extractId type hash)
  ∨ (∃ name, name ∈ attribute_names type
       ∧ c = RecMaterializeAttribute name (hash_get hash name))
  ∨ (∃ name meta, (name, meta) ∈ associationsByName type
       ∧ ((kind meta = "hasMany" ∧ c = RecMaterializeHasMany name (hash_get hash name))
          ∨ (kind meta = "belongsTo"
             ∧ c = RecMaterializeBelongsTo name (hash_get hash name)))).
Proof.
  unfold materialize_calls.
  rewrite elem_of_cons, elem_of_app, list_elem_of_fmap, elem_of_association_calls.
  naive_solver.
Qed.



(** ** Properties of materialization *)

(** C6: applying [materialize(record, hash)] a second time with the same
    hash leaves the record exactly as the first application left it:
    identifier, every field of the field mapping, and the rest of the
    record are the same. *)
Theorem materialize_idempotent (record : RecordObj) (hash : gmap string value) :
  self (materialize (self (materialize record hash)) hash)
  = self (materialize record hash).
Proof.
  rewrite !materialize_run. cbn [self]. rewrite apply_calls_constructor.
  set (cs := materialize_calls (constructor record) hash).
  pose proof (materialize_calls_payload (constructor record) hash) as Hcs.
  destruct (apply_calls_spec (payload_value hash) cs Hcs record)
    as (Hg1 & Hd1 & Hi1 & Hf1).
  destruct (apply_calls_spec (payload_value hash) cs Hcs (apply_calls record cs))
    as (Hg2 & Hd2 & Hi2 & Hf2).
  apply RecordObj_eq.
  - done.
  - by rewrite !apply_calls_constructor.
  - done.
  - rewrite Hi2, Hi1. by destruct (decide (None ∈ written_field <$> cs)).
  - apply map_eq. intros k. rewrite Hf2, Hf1.
    by destruct (decide (Some k ∈ written_field <$> cs)).
Qed.

(** C9, as stated, fails: [Ticket] declares the attribute [toString]; an
    empty payload does not have that name, yet [hash[name]] finds the
    method every object inherits, and the record receives it as the
    payload value. *)
Lemma absent_field_delegated_counterexample :
  ¬ absent_field_delegated (new_record 1 Ticket false) ∅ "toString".
Proof.
  unfold absent_field_delegated. intros H.
  match type of H with _ → _ → ?P =>
    assert (¬ P) as Hn by (apply (proj1 (bool_decide_eq_false _)); by vm_compute)
  end.
  apply Hn, H; [|done].
  left. apply (proj1 (bool_decide_spec _)). by vm_compute.
Qed.

(** C9, amended: for every declared attribute, and every declared
    association of kind hasMany or belongsTo, whose name the payload does
    not have, the matching per-field call is still made on the record, and
    the value it passes is [hash[name]]: [undefined], unless the payload
    object inherits a property of that name, which is then what the record
    receives. *)
Theorem materialize_absent_field (record : RecordObj) (hash : gmap string value)
    (name : string) :
  hash !! name = None →
  (name ∈ attribute_names (constructor record) →
     RecMaterializeAttribute name (inherited_value name)
       ∈ calls (materialize record hash))
  ∧ (∀ meta, (name, meta) ∈ associationsByName (constructor record) →
       kind meta = "hasMany" →
       RecMaterializeHasMany name (inherited_value name)
         ∈ calls (materialize record hash))
  ∧ (∀ meta, (name, meta) ∈ associationsByName (constructor record) →
       kind meta = "belongsTo" →
       RecMaterializeBelongsTo name (inherited_value name)
         ∈ calls (materialize record hash))
  ∧ (Object_prototype !! name = None → inherited_value name = VUndefined).
Proof.
  intros Habsent. rewrite materialize_run. cbn [calls].
  assert (hash_get hash name = inherited_value name) as Hget
    by (unfold hash_get; by rewrite Habsent).
  split; [|split; [|split]].
  - intros Hattr. apply materialize_calls_elem. right. left.
    exists name. by rewrite Hget.
  - intros meta Hin Hk. apply materialize_calls_elem. right. right.
    exists name, meta. rewrite Hget. naive_solver.
  - intros meta Hin Hk. apply materialize_calls_elem. right. right.
    exists name, meta. rewrite Hget. naive_solver.
  - unfold inherited_value. by intros ->.
Qed.

Lemma materialize_absent_field_witness :
  ({[ "title" := VStr "x" ]} : gmap string value) !! "author" = None
  ∧ RecMaterializeBelongsTo "author" VUndefined
      ∈ calls (materialize (new_record 1 Post false) {[ "title" := VStr "x" ]}).
Proof.
  split; [done|].
  refine (proj1 (proj2 (proj2 (materialize_absent_field (new_record 1 Post false)
                                 {[ "title" := VStr "x" ]} "author" _)))
            {| kind := "belongsTo" |} _ _).
  - done.
  - apply (proj1 (bool_decide_spec _)). by vm_compute.
  - done.
Defined.




(** ** Facts about groups and what arrays hold *)

Lemma groups_keys (items : list RecordObj) :
  (groups items).*1 = first_seen (constructor <$> items).
Proof.
  unfold groups. apply list_eq. intros i. rewrite !list_lookup_fmap.
  by destruct (first_seen (constructor <$> items) !! i).
Qed.

Lemma groups_lookup (items : list RecordObj) (i : nat)
    (x : RecordType * list RecordObj) :
  groups items !! i = Some x →
  first_seen (constructor <$> items) !! i = Some x.1 ∧ x.2 = of_type x.1 items.
Proof.
  unfold groups. rewrite list_lookup_fmap.
  destruct (first_seen (constructor <$> items) !! i) as [type|]; [|done].
  by intros [= <-].
Qed.

Lemma groups_elem (items : list RecordObj) (x : RecordType * list RecordObj) :
  x ∈ groups items ↔ x.1 ∈ constructor <$> items ∧ x.2 = of_type x.1 items.
Proof.
  unfold groups. rewrite list_elem_of_fmap. split.
  - intros (type & -> & Hin). rewrite first_seen_elem in Hin.
    split; [exact Hin|reflexivity].
  - intros [Hin Hx]. exists x.1. split; [|by apply first_seen_elem].
    destruct x. simpl in *. by subst.
Qed.

Lemma holds_keys (w : World) (entries : list (RecordType * nat))
    (g : list (RecordType * list RecordObj)) :
  holds w entries g → entries.*1 = g.*1.
Proof. induction 1 as [|e x es g [He _] _ IH]; [done|]. by rewrite !fmap_cons, He, IH. Qed.

Lemma holds_elem_l (w : World) (entries : list (RecordType * nat))
    (g : list (RecordType * list RecordObj)) (e : RecordType * nat) :
  holds w entries g → e ∈ entries →
  ∃ x, x ∈ g ∧ e.1 = x.1 ∧ arrays w !! e.2 = Some x.2.
Proof.
  intros Hh [i Hi]%list_elem_of_lookup_1.
  destruct (Forall2_lookup_l _ _ _ _ _ Hh Hi) as (x & Hx & He & Harr).
  exists x. split; [by eapply list_elem_of_lookup_2|done].
Qed.

Lemma holds_elem_r (w : World) (entries : list (RecordType * nat))
    (g : list (RecordType * list RecordObj)) (x : RecordType * list RecordObj) :
  holds w entries g → x ∈ g →
  ∃ e, e ∈ entries ∧ e.1 = x.1 ∧ arrays w !! e.2 = Some x.2.
Proof.
  intros Hh [i Hi]%list_elem_of_lookup_1.
  destruct (Forall2_lookup_r _ _ _ _ _ Hh Hi) as (e & He & Hk & Harr).
  exists e. split; [by eapply list_elem_of_lookup_2|done].
Qed.

Lemma holds_grouping (w : World) (entries : list (RecordType * nat))
    (g : list (RecordType * list RecordObj)) :
  holds w entries g → grouping_of w entries = g.
Proof.
  unfold grouping_of. induction 1 as [|e [k items] es g [He Harr] _ IH]; [done|].
  rewrite fmap_cons, IH. simpl in *. by rewrite He, Harr.
Qed.

(** The groups of a collection, laid end to end, are a rearrangement of
    the collection. *)
Lemma concat_of_type (keys : list RecordType) :
  ∀ items : list RecordObj,
    NoDup keys →
    (∀ r, r ∈ items → constructor r ∈ keys) →
    concat ((λ type, of_type type items) <$> keys) ≡ₚ items.
Proof.
  induction keys as [|k keys IH]; intros items Hnd Hcover.
  - destruct items as [|r items]; [done|].
    exfalso. eapply not_elem_of_nil, (Hcover r). by left.
  - apply NoDup_cons in Hnd as [Hk Hnd].
    rewrite fmap_cons. cbn [concat].
    set (others := filter (λ r, ¬ constructor r = k) items).
    assert ((λ type, of_type type items) <$> keys
            = (λ type, of_type type others) <$> keys) as ->.
    { apply list_fmap_ext. intros i type Hi. unfold of_type, others.
      rewrite list_filter_filter. apply list_filter_iff. intros r.
      split; [|naive_solver]. intros <-. split; [done|].
      intros Heq. apply Hk. rewrite <- Heq. by eapply list_elem_of_lookup_2. }
    rewrite (IH others Hnd).
    + apply filter_app_complement.
    + intros r [Hr Hin]%list_elem_of_filter.
      specialize (Hcover r Hin). apply elem_of_cons in Hcover as [?|?]; done.
Qed.

Lemma groups_concat (items : list RecordObj) : concat (groups items).*2 ≡ₚ items.
Proof.
  unfold groups. rewrite <- list_fmap_compose.
  apply (concat_of_type (first_seen (constructor <$> items))).
  - apply first_seen_NoDup.
  - intros r Hr. apply first_seen_elem. by apply list_elem_of_fmap_2.
Qed.

Lemma count_NoDup {A} `{EqDecision A} (l : list A) (x : A) :
  NoDup l → length (filter (λ y, y = x) l) = if decide (x ∈ l) then 1 else 0.
Proof.
  induction 1 as [|a l Ha Hnd IH]; [done|].
  destruct (decide (a = x)) as [->|Hne].
  - rewrite filter_cons_True by done. rewrite decide_True by (by left).
    simpl. rewrite IH, decide_False by done. done.
  - rewrite filter_cons_False by done. rewrite IH.
    destruct (decide (x ∈ l)) as [Hin|Hin].
    + rewrite decide_True by (by right). done.
    + rewrite decide_False by (rewrite elem_of_cons; naive_solver). done.
Qed.

Lemma filter_none {A} (P : A → Prop) `{!∀ x, Decision (P x)} (l : list A) :
  Forall (λ x, ¬ P x) l → filter P l = [].
Proof.
  induction 1 as [|x l Hx _ IH]; [done|]. by rewrite filter_cons_False.
Qed.

Lemma forEach_call {A} (make : A → Event) (l : list A) :
  ∀ w : World,
    forEach l (λ x, call (make x)) w =
      (tt, {| arrays := arrays w; maps := maps w; trace := trace w ++ (make <$> l) |}).
Proof.
  induction l as [|x l IH]; intros w.
  - simpl. unfold mret, St_ret. rewrite app_nil_r. by destruct w.
  - rewrite forEach_cons, IH. unfold call, modify. cbn [snd arrays maps trace].
    by rewrite <- app_assoc.
Qed.

(** ** Properties of [groupByType] *)

(** C3: [groupByType(C)] partitions the collection by record type.  With
    the array references of the returned map followed: the keys are the
    types of [C] in first-seen order, each once; the group of a type is
    exactly the records of that type in their original relative order; the
    groups together are a rearrangement of [C]; and every record of [C]
    sits in one group and no other. *)
Theorem groupByType_partitions (enumerable : Enumerable) (C : list RecordObj)
    (w : World) :
  enumerable_items enumerable w = (C, w) →
  let map := (groupByType enumerable w).1 in
  let w' := (groupByType enumerable w).2 in
  let g := grouping w' map in
  g.*1 = first_seen (constructor <$> C)
  ∧ NoDup g.*1
  ∧ (∀ type items, (type, items) ∈ g → items = of_type type C)
  ∧ concat g.*2 ≡ₚ C
  ∧ (∀ r, r ∈ C →
       ∃ i, (∃ e, g !! i = Some e ∧ r ∈ e.2)
            ∧ ∀ j e, g !! j = Some e → r ∈ e.2 → j = i).
Proof.
  intros Hitems map w' g. subst map w' g.
  rewrite (groupByType_run enumerable C w Hitems). cbn [fst snd].
  unfold grouping. cbn [maps]. rewrite lookup_app_r, Nat.sub_diag by lia.
  change (default [] ([layout (length (arrays w)) (groups C)] !! 0))
    with (layout (length (arrays w)) (groups C)).
  rewrite (holds_grouping _ _ (groups C))
    by (apply (holds_layout _ _ _ (arrays w) []);
        [cbn [arrays]; by rewrite app_nil_r | done]).
  split; [apply groups_keys|].
  split; [rewrite groups_keys; apply first_seen_NoDup|].
  split; [by intros type items [_ ?]%groups_elem|].
  split; [apply groups_concat|].
  intros r Hr.
  assert (constructor r ∈ (groups C).*1) as [i Hi]%list_elem_of_lookup_1.
  { rewrite groups_keys. apply first_seen_elem. by apply list_elem_of_fmap_2. }
  exists i. split.
  - rewrite list_lookup_fmap in Hi.
    destruct (groups C !! i) as [e|] eqn:He; [|done].
    injection Hi as Hk. exists e. split; [done|].
    apply groups_lookup in He as [_ ->]. rewrite Hk.
    apply list_elem_of_filter. done.
  - intros j e Hj Hin.
    pose proof (groups_lookup _ _ _ Hj) as [_ He]. rewrite He in Hin.
    apply list_elem_of_filter in Hin as [Hk _].
    eapply (NoDup_lookup (groups C).*1); [| |exact Hi].
    + rewrite groups_keys. apply first_seen_NoDup.
    + by rewrite list_lookup_fmap, Hj, Hk.
Qed.

Lemma groupByType_partitions_witness :
  let C := [new_record 1 Post true; new_record 2 Comment true;
            new_record 3 Post false] in
  let run := groupByType (OrderedSet C) empty_world in
  enumerable_items (OrderedSet C) empty_world = (C, empty_world)
  ∧ (grouping run.2 run.1).*1 = first_seen (constructor <$> C)
  ∧ concat (grouping run.2 run.1).*2 ≡ₚ C.
Proof.
  intros C run.
  pose proof (groupByType_partitions (OrderedSet C) C empty_world eq_refl)
    as (Hkeys & _ & _ & Hperm & _).
  split; [reflexivity|]. split; [exact Hkeys|exact Hperm].
Defined.

(** ** Properties of the default batched methods *)

(** C7: the default [findMany(store, type, ids)] calls [find(store, type,
    id)] once for each id, in the order of [ids], and does nothing else: it
    returns no value and leaves the object store as it was. *)
Theorem findMany_calls_find (store : Store) (type : RecordType) (ids : list value)
    (w : World) :
  findMany store type ids w =
    (tt, {| arrays := arrays w; maps := maps w;
            trace := trace w ++ (CallFind store type <$> ids) |})
  ∧ calls_of (findMany store type ids) w = CallFind store type <$> ids
  ∧ length (calls_of (findMany store type ids) w) = length ids.
Proof.
  unfold findMany, calls_of. rewrite forEach_call. cbn [snd trace].
  rewrite drop_app_length, length_fmap. done.
Qed.

(** C8: the default [createRecords], [updateRecords] and [deleteRecords]
    call the matching single-record method once for each record of the
    collection they are given, in the order of the collection, one record
    per call. *)
Theorem batched_defaults_call_primitives (store : Store) (type : RecordType)
    (records : Enumerable) (items : list RecordObj) (w : World) :
  enumerable_items records w = (items, w) →
  calls_of (createRecords store type records) w = CallCreateRecord store type <$> items
  ∧ calls_of (updateRecords store type records) w = CallUpdateRecord store type <$> items
  ∧ calls_of (deleteRecords store type records) w = CallDeleteRecord store type <$> items.
Proof.
  intros Hitems.
  unfold calls_of, createRecords, updateRecords, deleteRecords.
  rewrite !bind_run, Hitems. cbn [fst snd].
  rewrite !forEach_call. cbn [snd trace].
  by rewrite !drop_app_length.
Qed.

Lemma batched_defaults_call_primitives_witness :
  let r1 := new_record 1 Post true in
  let r2 := new_record 2 Post true in
  enumerable_items (OrderedSet [r1; r2]) empty_world = ([r1; r2], empty_world)
  ∧ calls_of (createRecords 0 Post (OrderedSet [r1; r2])) empty_world
    = [CallCreateRecord 0 Post r1; CallCreateRecord 0 Post r2].
Proof.
  intros r1 r2. split; [reflexivity|].
  exact (proj1 (batched_defaults_call_primitives 0 Post (OrderedSet [r1; r2])
                  [r1; r2] empty_world eq_refl)).
Defined.

(** ** Properties of [commit] *)

Lemma filter_events_elem (this : Adapter) (store : Store)
    (relationships : Relationships) (records : list RecordObj) (e : Event) :
  e ∈ filter_events this store relationships records ↔
  ∃ r, r ∈ records ∧ isDirty r = false
       ∧ (e = CallShouldCommit r relationships
          ∨ (shouldCommit this r relationships = false
             ∧ e = CallDidUpdateRecord store r)).
Proof.
  unfold filter_events. rewrite list_elem_of_bind. split.
  - intros (r & He & Hr). exists r. split; [done|].
    destruct (isDirty r); [by apply elem_of_nil in He|]. split; [done|].
    destruct (shouldCommit this r relationships); set_solver.
  - intros (r & Hr & Hd & He). exists r. split; [|done]. rewrite Hd.
    destruct He as [->|[Hs ->]]; [by left|]. rewrite Hs. set_solver.
Qed.

Lemma filter_events_not_batched (this : Adapter) (store : Store)
    (relationships : Relationships) (records : list RecordObj) :
  Forall (λ e, is_batched e = false) (filter_events this store relationships records).
Proof.
  apply Forall_forall. intros e (r & _ & _ & [->|[_ ->]])%filter_events_elem; done.
Qed.

Lemma kept_elem (this : Adapter) (relationships : Relationships)
    (records : list RecordObj) (r : RecordObj) :
  r ∈ kept this relationships records ↔
  r ∈ records ∧ (isDirty r = true ∨ shouldCommit this r relationships = true).
Proof.
  unfold kept, keeps. rewrite list_elem_of_filter, orb_true_iff. naive_solver.
Qed.

(** C4: [commit] issues its batched calls in a fixed order, after the
    calls of the filtering loop: [createRecords] once for each type present
    in [created], types in first-seen order, then [updateRecords] once for
    each type of the queued updates, then [deleteRecords] once for each
    type present in [deleted].  The array handed to a batched call holds
    the records of its group, and it is not one of the arrays the three
    grouping maps refer to -- it is a copy. *)
Theorem commit_batched_order (this : Adapter) (store : Store)
    (commitDetails : CommitDetails) (relationships : Relationships) (w : World) :
  let w' := (commit this store commitDetails relationships w).2 in
  let queued := kept this relationships (updated commitDetails) in
  ∃ mc mu md cc cu cdl : list (RecordType * nat),
    calls_of (commit this store commitDetails relationships) w =
      filter_events this store relationships (updated commitDetails)
        ++ ((λ e, CallCreateRecords store e.1 e.2) <$> cc)
        ++ ((λ e, CallUpdateRecords store e.1 e.2) <$> cu)
        ++ ((λ e, CallDeleteRecords store e.1 e.2) <$> cdl)
    ∧ Forall (λ e, is_batched e = false)
        (filter_events this store relationships (updated commitDetails))
    ∧ cc.*1 = first_seen (constructor <$> created commitDetails)
    ∧ cu.*1 = first_seen (constructor <$> queued)
    ∧ cdl.*1 = first_seen (constructor <$> deleted commitDetails)
    ∧ holds w' cc (groups (created commitDetails))
    ∧ holds w' cu (groups queued)
    ∧ holds w' cdl (groups (deleted commitDetails))
    ∧ maps w' = maps w ++ [mc; mu; md]
    ∧ holds w' mc (groups (created commitDetails))
    ∧ holds w' mu (groups queued)
    ∧ holds w' md (groups (deleted commitDetails))
    ∧ (∀ a, a ∈ (cc ++ cu ++ cdl).*2 → a ∉ (mc ++ mu ++ md).*2).
Proof.
  intros w' queued.
  destruct (commit_spec this store commitDetails relationships w)
    as (mc & mu & md & cc & cu & cdl & Hmaps & Htrace
        & Hmc & Hcc & Hmu & Hcu & Hmd & Hcdl & Hfresh).
  exists mc, mu, md, cc, cu, cdl.
  split; [unfold calls_of; by rewrite Htrace, drop_app_length|].
  split; [apply filter_events_not_batched|].
  split; [by rewrite (holds_keys _ _ _ Hcc), groups_keys|].
  split; [by rewrite (holds_keys _ _ _ Hcu), groups_keys|].
  split; [by rewrite (holds_keys _ _ _ Hcdl), groups_keys|].
  done.
Qed.

(** C1: a record of [commitDetails.updated] whose dirty flag is true is
    queued without asking: some [updateRecords] call for the record's type
    receives an array that contains it, and [commit] makes no
    [shouldCommit] call on it. *)
Theorem commit_dirty_record (this : Adapter) (store : Store)
    (commitDetails : CommitDetails) (relationships : Relationships) (w : World)
    (record : RecordObj) :
  record ∈ updated commitDetails →
  isDirty record = true →
  let w' := (commit this store commitDetails relationships w).2 in
  let made := calls_of (commit this store commitDetails relationships) w in
  (∃ arr items,
      CallUpdateRecords store (constructor record) arr ∈ made
      ∧ arrays w' !! arr = Some items
      ∧ record ∈ items)
  ∧ (∀ rel, CallShouldCommit record rel ∉ made).
Proof.
  intros Hin Hdirty w' made.
  destruct (commit_spec this store commitDetails relationships w)
    as (mc & mu & md & cc & cu & cdl & Hmaps & Htrace
        & Hmc & Hcc & Hmu & Hcu & Hmd & Hcdl & Hfresh).
  assert (Hmade : made =
      filter_events this store relationships (updated commitDetails)
        ++ ((λ e, CallCreateRecords store e.1 e.2) <$> cc)
        ++ ((λ e, CallUpdateRecords store e.1 e.2) <$> cu)
        ++ ((λ e, CallDeleteRecords store e.1 e.2) <$> cdl))
    by (unfold made, calls_of; by rewrite Htrace, drop_app_length).
  set (queued := kept this relationships (updated commitDetails)) in *.
  assert (Hq : record ∈ queued) by (apply kept_elem; auto).
  split.
  - destruct (holds_elem_r _ _ _ (constructor record, of_type (constructor record) queued)
                Hcu) as ([type arr] & He & Hk & Harr).
    { apply groups_elem. cbn [fst snd].
      split; [by apply list_elem_of_fmap_2|done]. }
    simpl in Hk, Harr. subst type.
    exists arr, (of_type (constructor record) queued).
    split; [|split; [exact Harr|by apply list_elem_of_filter]].
    rewrite Hmade, !elem_of_app. right. right. left.
    apply list_elem_of_fmap. by exists (constructor record, arr).
  - intros rel. rewrite Hmade, !elem_of_app, !list_elem_of_fmap, filter_events_elem.
    intros [(r & _ & Hd & [[= <- _]|[_ ?]])|[(? & ? & _)|[(? & ? & _)|(? & ? & _)]]];
      congruence.
Qed.

Lemma commit_dirty_record_witness :
  let record := new_record 1 Post true in
  let details := {| created := []; updated := [record]; deleted := [] |} in
  record ∈ updated details
  ∧ isDirty record = true
  ∧ ∀ rel, CallShouldCommit record rel
             ∉ calls_of (commit lazy_adapter 0 details 7) empty_world.
Proof.
  intros record details.
  assert (Hin : record ∈ updated details) by (by left).
  split; [exact Hin|]. split; [reflexivity|].
  exact (proj2 (commit_dirty_record lazy_adapter 0 details 7 empty_world record
                  Hin eq_refl)).
Defined.

Lemma count_didUpdateRecord (this : Adapter) (store : Store)
    (relationships : Relationships) (record : RecordObj) (records : list RecordObj) :
  isDirty record = false →
  shouldCommit this record relationships = false →
  NoDup records →
  length (filter (λ e, is_didUpdateRecord_of record e = true)
            (filter_events this store relationships records))
  = if decide (record ∈ records) then 1 else 0.
Proof.
  intros Hd Hs. induction 1 as [|r records Hr Hnd IH]; [done|].
  unfold filter_events in *. rewrite bind_cons, filter_app, length_app, IH.
  destruct (decide (r = record)) as [->|Hne].
  - rewrite Hd, Hs.
    rewrite (decide_True (P := record ∈ record :: records)) by (by left).
    rewrite decide_False by done.
    rewrite filter_cons_False by done.
    rewrite filter_cons_True by (simpl; by rewrite bool_decide_eq_true).
    done.
  - assert (filter (λ e, is_didUpdateRecord_of record e = true)
              (if isDirty r then []
               else CallShouldCommit r relationships ::
                    (if shouldCommit this r relationships then []
                     else [CallDidUpdateRecord store r])) = []) as ->.
    { apply filter_none.
      destruct (isDirty r); [constructor|].
      destruct (shouldCommit this r relationships);
        repeat constructor; simpl; try done;
        rewrite bool_decide_eq_true; done. }
    destruct (decide (record ∈ records)) as [Hin|Hin].
    + rewrite decide_True by (by right). done.
    + rewrite decide_False by (rewrite elem_of_cons; naive_solver). done.
Qed.

(** C2: a clean record of [commitDetails.updated] (a set: no record
    twice) for which [shouldCommit] answers false is reported to the store
    by exactly one [didUpdateRecord] call, and no array handed to an
    [updateRecords] call contains it. *)
Theorem commit_clean_record_skipped (this : Adapter) (store : Store)
    (commitDetails : CommitDetails) (relationships : Relationships) (w : World)
    (record : RecordObj) :
  record ∈ updated commitDetails →
  NoDup (updated commitDetails) →
  isDirty record = false →
  shouldCommit this record relationships = false →
  let w' := (commit this store commitDetails relationships w).2 in
  let made := calls_of (commit this store commitDetails relationships) w in
  CallDidUpdateRecord store record ∈ made
  ∧ length (filter (λ e, is_didUpdateRecord_of record e = true) made) = 1
  ∧ (∀ s type arr items,
       CallUpdateRecords s type arr ∈ made →
       arrays w' !! arr = Some items →
       record ∉ items).
Proof.
  intros Hin Hnd Hdirty Hshould w' made.
  destruct (commit_spec this store commitDetails relationships w)
    as (mc & mu & md & cc & cu & cdl & Hmaps & Htrace
        & Hmc & Hcc & Hmu & Hcu & Hmd & Hcdl & Hfresh).
  assert (Hmade : made =
      filter_events this store relationships (updated commitDetails)
        ++ ((λ e, CallCreateRecords store e.1 e.2) <$> cc)
        ++ ((λ e, CallUpdateRecords store e.1 e.2) <$> cu)
        ++ ((λ e, CallDeleteRecords store e.1 e.2) <$> cdl))
    by (unfold made, calls_of; by rewrite Htrace, drop_app_length).
  set (queued := kept this relationships (updated commitDetails)) in *.
  split; [|split].
  - rewrite Hmade, elem_of_app. left. apply filter_events_elem.
    exists record. auto.
  - rewrite Hmade, !filter_app, !length_app.
    rewrite (count_didUpdateRecord this store relationships record _
               Hdirty Hshould Hnd), decide_True by done.
    rewrite !(filter_none (λ e, is_didUpdateRecord_of record e = true));
      [done|apply Forall_fmap, Forall_forall; by intros ??..].
  - intros s type arr items Hcall Harr Hrec.
    rewrite Hmade, !elem_of_app, !list_elem_of_fmap, filter_events_elem in Hcall.
    destruct Hcall as [(r & _ & _ & [?|[_ ?]])|[(? & ? & _)|[(e & He & Hecu)|(? & ? & _)]]];
      try congruence.
    injection He as -> -> ->.
    destruct (holds_elem_l _ _ _ _ Hcu Hecu) as (x & Hx & _ & Harr').
    fold w' in Harr'. rewrite Harr in Harr'. injection Harr' as ->.
    apply groups_elem in Hx as [_ Hx]. rewrite Hx in Hrec.
    apply list_elem_of_filter in Hrec as [_ Hrec].
    apply kept_elem in Hrec as [_ [?|?]]; congruence.
Qed.

Lemma commit_clean_record_skipped_witness :
  let record := new_record 1 Post false in
  let details := {| created := []; updated := [record; new_record 2 Post true];
                    deleted := [] |} in
  let made := calls_of (commit lazy_adapter 0 details 7) empty_world in
  record ∈ updated details
  ∧ NoDup (updated details)
  ∧ isDirty record = false
  ∧ shouldCommit lazy_adapter record 7 = false
  ∧ CallDidUpdateRecord 0 record ∈ made
  ∧ length (filter (λ e, is_didUpdateRecord_of record e = true) made) = 1.
Proof.
  intros record details made.
  assert (Hin : record ∈ updated details) by (by left).
  assert (Hnd : NoDup (updated details))
    by (apply (proj1 (bool_decide_spec _)); by vm_compute).
  pose proof (commit_clean_record_skipped lazy_adapter 0 details 7 empty_world
                record Hin Hnd eq_refl eq_refl) as (Hcall & Hcount & _).
  split; [exact Hin|]. split; [exact Hnd|].
  split; [reflexivity|]. split; [reflexivity|].
  split; [exact Hcall|exact Hcount].
Defined.

Lemma count_updateRecords (store : Store) (type : RecordType)
    (entries : list (RecordType * nat)) :
  length (filter (λ e, is_updateRecords_for type e = true)
            ((λ e, CallUpdateRecords store e.1 e.2) <$> entries))
  = length (filter (λ t, t = type) entries.*1).
Proof.
  induction entries as [|[t arr] entries IH]; [done|].
  rewrite !fmap_cons. cbn [fst snd].
  destruct (decide (t = type)) as [->|Hne].
  - rewrite !filter_cons_True; [|done|simpl; by rewrite bool_decide_eq_true].
    simpl. by rewrite IH.
  - rewrite !filter_cons_False; [done|done|simpl; by rewrite bool_decide_eq_true].
Qed.

(** C5: when only [updated] has records, [commit] calls [updateRecords]
    exactly once for each record type that occurs among the records left
    by the dirty/shouldCommit filter, never for another type, and calls
    neither [createRecords] nor [deleteRecords]. *)
Theorem commit_updates_only (this : Adapter) (store : Store) (U : list RecordObj)
    (relationships : Relationships) (w : World) :
  let details := {| created := []; updated := U; deleted := [] |} in
  let made := calls_of (commit this store details relationships) w in
  (∀ type,
     length (filter (λ e, is_updateRecords_for type e = true) made)
     = if decide (type ∈ constructor <$> kept this relationships U) then 1 else 0)
  ∧ Forall (λ e, is_createRecords e = false ∧ is_deleteRecords e = false) made.
Proof.
  intros details made.
  destruct (commit_spec this store details relationships w)
    as (mc & mu & md & cc & cu & cdl & Hmaps & Htrace
        & Hmc & Hcc & Hmu & Hcu & Hmd & Hcdl & Hfresh).
  cbn [created updated deleted details] in *.
  apply Forall2_nil_inv_r in Hcc as ->. apply Forall2_nil_inv_r in Hcdl as ->.
  assert (Hmade : made =
      filter_events this store relationships U
        ++ ((λ e, CallUpdateRecords store e.1 e.2) <$> cu)).
  { unfold made, calls_of. rewrite Htrace, drop_app_length.
    by rewrite fmap_nil, app_nil_r. }
  split.
  - intros type. rewrite Hmade, filter_app, length_app.
    rewrite (filter_none (λ e, is_updateRecords_for type e = true)
               (filter_events this store relationships U)).
    2:{ apply Forall_forall.
        intros e (r & _ & _ & [->|[_ ->]])%filter_events_elem; done. }
    rewrite count_updateRecords, (holds_keys _ _ _ Hcu), groups_keys.
    rewrite count_NoDup by apply first_seen_NoDup.
    apply decide_ext, first_seen_elem.
  - rewrite Hmade. apply Forall_app. split.
    + apply Forall_forall.
      intros e (r & _ & _ & [->|[_ ->]])%filter_events_elem; done.
    + apply Forall_fmap, Forall_forall. by intros ??.
Qed.

(** * Further properties *)

(** ** Materialization, continued *)

Lemma written_fields_of_type (type : RecordType) (h1 h2 : gmap string value) :
  written_field <$> materialize_calls type h1
  = written_field <$> materialize_calls type h2.
Proof.
  unfold materialize_calls. rewrite !fmap_cons, !fmap_app. f_equal. f_equal.
  - rewrite <- !list_fmap_compose. by apply list_fmap_ext.
  - induction (associationsByName type) as [|[name meta] l IH]; [done|].
    rewrite !bind_cons, !fmap_app, IH. f_equal.
    unfold association_calls. cbn [fst snd]. by repeat case_decide.
Qed.

Lemma id_always_written (type : RecordType) (hash : gmap string value) :
  None ∈ written_field <$> materialize_calls type hash.
Proof. unfold materialize_calls. rewrite fmap_cons. by left. Qed.

Lemma field_written (type : RecordType) (hash : gmap string value) (name : string) :
  Some name ∈ written_field <$> materialize_calls type hash ↔
  name ∈ attribute_names type
  ∨ ∃ meta, (name, meta) ∈ associationsByName type ∧ known_kind meta.
Proof.
  rewrite list_elem_of_fmap. unfold known_kind. split.
  - intros (c & Hw & Hc). apply materialize_calls_elem in Hc.
    destruct Hc as [->|[(n & Hn & ->)|(n & m & Hnm & [[Hk ->]|[Hk ->]])]];
      [done|injection Hw as ->..]; [by left|right; exists m; auto..].
  - intros [Hattr|(meta & Hin & [Hk|Hk])].
    + exists (RecMaterializeAttribute name (hash_get hash name)).
      split; [done|]. apply materialize_calls_elem. right. left. by exists name.
    + exists (RecMaterializeHasMany name (hash_get hash name)).
      split; [done|]. apply materialize_calls_elem. right. right.
      exists name, meta. auto.
    + exists (RecMaterializeBelongsTo name (hash_get hash name)).
      split; [done|]. apply materialize_calls_elem. right. right.
      exists name, meta. auto.
Qed.

(** X1: [materialize] calls the record in a fixed order: [materializeId]
    first, then [materializeAttribute] once per attribute in the order
    [eachAttribute] yields them, then one call per hasMany or belongsTo
    association in the order of [associationsByName]; every value is read
    from the payload under the field's own name.  The record ends up as
    these calls, applied in that order, leave it. *)
Theorem materialize_call_sequence (record : RecordObj) (hash : gmap string value) :
  calls (materialize record hash)
  = RecMaterializeId (hash_get hash "id")
      :: ((λ name, RecMaterializeAttribute name (hash_get hash name))
            <$> attribute_names (constructor record))
      ++ (associationsByName (constructor record) ≫= association_calls hash)
  ∧ self (materialize record hash)
    = apply_calls record (calls (materialize record hash)).
Proof. by rewrite materialize_run. Qed.

(** X2: [materialize] always overwrites the identifier with [hash.id]: the
    first call on the record is [materializeId], and a payload without an
    [id] sets the identifier to [undefined] whatever it was before. *)
Theorem materialize_identifier (record : RecordObj) (hash : gmap string value) :
  head (calls (materialize record hash))
  = Some (RecMaterializeId (default VUndefined (hash !! "id")))
  ∧ rec_id (self (materialize record hash)) = default VUndefined (hash !! "id").
Proof.
  rewrite materialize_run. cbn [calls self]. split; [done|].
  destruct (apply_calls_spec (payload_value hash) _
              (materialize_calls_payload (constructor record) hash) record)
    as (_ & _ & Hid & _).
  rewrite Hid, decide_True by apply id_always_written. done.
Qed.

(** X3: after [materialize], a declared attribute or hasMany or belongsTo
    association for which the payload carries a value holds that value,
    whatever the record held under that name before. *)
Theorem materialize_sets_fields (record : RecordObj) (hash : gmap string value)
    (name : string) (v : value) :
  hash !! name = Some v →
  v ≠ VUndefined →
  name ∈ attribute_names (constructor record)
    ∨ (∃ meta, (name, meta) ∈ associationsByName (constructor record)
               ∧ known_kind meta) →
  data (self (materialize record hash)) !! name = Some v.
Proof.
  intros Hv _ Hdecl. rewrite materialize_run. cbn [self].
  destruct (apply_calls_spec (payload_value hash) _
              (materialize_calls_payload (constructor record) hash) record)
    as (_ & _ & _ & Hdata).
  rewrite Hdata, decide_True by (by apply field_written).
  cbn [payload_value]. unfold hash_get. by rewrite Hv.
Qed.

Lemma materialize_sets_fields_witness :
  let record :=
    {| guid := 1; constructor := Post; isDirty := false; rec_id := VNull;
       data := {[ "title" := VStr "old"; "author" := VNum 1 ]} |} in
  let after :=
    self (materialize record {[ "title" := VStr "new"; "author" := VNum 7 ]}) in
  data after !! "title" = Some (VStr "new")
  ∧ data after !! "author" = Some (VNum 7).
Proof.
  intros record after. subst after. split.
  - apply (materialize_sets_fields record _ "title" (VStr "new")); [done|done|].
    left. apply (proj1 (bool_decide_spec _)). by vm_compute.
  - apply (materialize_sets_fields record _ "author" (VNum 7)); [done|done|].
    right. exists {| kind := "belongsTo" |}. split.
    + apply (proj1 (bool_decide_spec _)). by vm_compute.
    + by right.
Defined.

(** X4: a payload key the record's type does not declare never reaches the
    record: no call names it, and the record's entry under that name is
    what it was. *)
Theorem materialize_ignores_undeclared (record : RecordObj)
    (hash : gmap string value) (name : string) :
  name ∉ attribute_names (constructor record) →
  name ∉ association_names (constructor record) →
  Forall (λ c, written_field c ≠ Some name) (calls (materialize record hash))
  ∧ data (self (materialize record hash)) !! name = data record !! name.
Proof.
  intros Hattr Hassoc.
  assert (Some name ∉ written_field <$> materialize_calls (constructor record) hash)
    as Hfree.
  { rewrite field_written. intros [?|(meta & Hin & _)]; [done|].
    apply Hassoc. unfold association_names. apply list_elem_of_fmap.
    by exists (name, meta). }
  rewrite materialize_run. cbn [calls self]. split.
  - apply Forall_forall. intros c Hc Hw. apply Hfree.
    apply list_elem_of_fmap. by exists c.
  - destruct (apply_calls_spec (payload_value hash) _
                (materialize_calls_payload (constructor record) hash) record)
      as (_ & _ & _ & Hdata).
    rewrite Hdata. by rewrite decide_False.
Qed.

Lemma materialize_ignores_undeclared_witness :
  let record :=
    {| guid := 1; constructor := Comment; isDirty := false; rec_id := VNull;
       data := {[ "likes" := VNum 3 ]} |} in
  data (self (materialize record {[ "likes" := VNum 9; "body" := VStr "b" ]}))
    !! "likes" = Some (VNum 3).
Proof.
  intros record.
  refine (proj2 (materialize_ignores_undeclared record
                   {[ "likes" := VNum 9; "body" := VStr "b" ]} "likes" _ _)).
  - apply (proj1 (bool_decide_spec _)). by vm_compute.
  - apply (proj1 (bool_decide_spec _)). by vm_compute.
Defined.

(** X5: a complete payload determines the record.  If the second payload
    carries a value for the identifier and for every declared attribute
    and hasMany or belongsTo association, then materializing it after
    another payload leaves the record exactly as materializing it alone
    does: nothing of the first payload survives. *)
Theorem materialize_complete_payload_wins (record : RecordObj)
    (h1 h2 : gmap string value) :
  payload_complete (constructor record) h2 →
  self (materialize (self (materialize record h1)) h2)
  = self (materialize record h2).
Proof.
  intros _.
  rewrite !materialize_run. cbn [self]. rewrite apply_calls_constructor.
  set (type := constructor record).
  pose proof (written_fields_of_type type h1 h2) as Hsame.
  destruct (apply_calls_spec (payload_value h1) _
              (materialize_calls_payload type h1) record)
    as (Hg1 & Hd1 & Hi1 & Hf1).
  destruct (apply_calls_spec (payload_value h2) _
              (materialize_calls_payload type h2) record)
    as (Hg2 & Hd2 & Hi2 & Hf2).
  destruct (apply_calls_spec (payload_value h2) _
              (materialize_calls_payload type h2)
              (apply_calls record (materialize_calls type h1)))
    as (Hg3 & Hd3 & Hi3 & Hf3).
  apply RecordObj_eq.
  - by rewrite Hg3, Hg2, Hg1.
  - by rewrite !apply_calls_constructor.
  - by rewrite Hd3, Hd2, Hd1.
  - rewrite Hi3, Hi2.
    by rewrite !decide_True by apply id_always_written.
  - apply map_eq. intros k. rewrite Hf3, Hf2, Hf1, Hsame.
    by destruct (decide (Some k ∈ written_field <$> materialize_calls type h2)).
Qed.

Lemma materialize_complete_payload_wins_witness :
  let record := new_record 1 Comment false in
  let h1 : gmap string value :=
    {[ "id" := VNum 1; "body" := VStr "a"; "post" := VNum 10; "note" := VNull ]} in
  let h2 : gmap string value :=
    {[ "id" := VNum 2; "body" := VStr "b"; "post" := VNum 20 ]} in
  payload_complete Comment h2
  ∧ self (materialize (self (materialize record h1)) h2)
    = self (materialize record h2).
Proof.
  intros record h1 h2.
  assert (Hc : payload_complete Comment h2).
  { split; [exists (VNum 2); by split|].
    intros name [Hattr|(meta & Hin & _)].
    - apply list_elem_of_singleton in Hattr as ->.
      exists (VStr "b"). by split.
    - apply list_elem_of_singleton in Hin as [= -> _].
      exists (VNum 20). by split. }
  split; [exact Hc|].
  exact (materialize_complete_payload_wins record h1 h2 Hc).
Defined.

(** ** [groupByType], continued *)

Lemma enumerable_items_run (enumerable : Enumerable) (w : World) :
  enumerable_items enumerable w = ((enumerable_items enumerable w).1, w).
Proof. by destruct enumerable. Qed.

Lemma groupByType_grouping (enumerable : Enumerable) (w : World) :
  grouping (groupByType enumerable w).2 (groupByType enumerable w).1
  = groups (enumerable_items enumerable w).1.
Proof.
  rewrite (groupByType_run enumerable _ w (enumerable_items_run enumerable w)).
  cbn [fst snd]. unfold grouping. cbn [maps].
  rewrite lookup_app_r, Nat.sub_diag by lia.
  apply holds_grouping.
  apply (holds_layout _ _ _ (arrays w) []); [cbn [arrays]; by rewrite app_nil_r|done].
Qed.

Lemma groups_nonempty (items : list RecordObj) (x : RecordType * list RecordObj) :
  x ∈ groups items → x.2 ≠ [].
Proof.
  intros [Hin Hx]%groups_elem.
  apply list_elem_of_fmap in Hin as (r & Hr & Hin).
  rewrite Hx. intros Hnil.
  assert (r ∈ of_type x.1 items) as Hmem by (by apply list_elem_of_filter).
  rewrite Hnil in Hmem. by apply elem_of_nil in Hmem.
Qed.

Lemma groups_nil (items : list RecordObj) : groups items = [] ↔ items = [].
Proof.
  split; [|by intros ->].
  destruct items as [|r items]; [done|]. intros Hnil.
  assert ((constructor r, of_type (constructor r) (r :: items)) ∈ groups (r :: items))
    as Hin by (apply groups_elem; split; [by left|done]).
  rewrite Hnil in Hin. by apply elem_of_nil in Hin.
Qed.

(** X6: [groupByType] only allocates.  It makes no call, returns the one
    map it creates, leaves every array and map that existed before as it
    was, and binds the keys, in order, to one newly allocated array each:
    as many arrays as there are distinct types, none shared between two
    keys. *)
Theorem groupByType_allocates_fresh (enumerable : Enumerable) (w : World) :
  let C := (enumerable_items enumerable w).1 in
  let run := groupByType enumerable w in
  trace run.2 = trace w
  ∧ run.1 = length (maps w)
  ∧ ∃ new entries,
      arrays run.2 = arrays w ++ new
      ∧ maps run.2 = maps w ++ [entries]
      ∧ length new = length (first_seen (constructor <$> C))
      ∧ entries.*2 = seq (length (arrays w)) (length new).
Proof.
  intros C run. subst run.
  rewrite (groupByType_run enumerable C w (enumerable_items_run enumerable w)).
  cbn [fst snd arrays maps trace]. split; [done|]. split; [done|].
  exists (groups C).*2, (layout (length (arrays w)) (groups C)).
  split; [done|]. split; [done|].
  rewrite layout_addresses, length_fmap.
  split; [|done]. by rewrite <- (length_fmap fst), groups_keys.
Qed.

(** X7: no group of [groupByType] is empty and every record of a group has
    the type the group is keyed by; the map has no key at all exactly when
    the collection is empty. *)
Theorem groupByType_groups_nonempty (enumerable : Enumerable) (w : World) :
  let C := (enumerable_items enumerable w).1 in
  let run := groupByType enumerable w in
  let g := grouping run.2 run.1 in
  Forall (λ x, x.2 ≠ [] ∧ Forall (λ r, constructor r = x.1) x.2) g
  ∧ (g = [] ↔ C = []).
Proof.
  intros C run g. subst run g. rewrite groupByType_grouping. fold C. split.
  - apply Forall_forall. intros x Hx. split; [by eapply groups_nonempty|].
    apply groups_elem in Hx as [_ ->]. apply Forall_forall.
    by intros r [? _]%list_elem_of_filter.
  - apply groups_nil.
Qed.

(** ** [commit], continued *)

Lemma commit_made (this : Adapter) (store : Store) (commitDetails : CommitDetails)
    (relationships : Relationships) (w : World) :
  let w' := (commit this store commitDetails relationships w).2 in
  let queued := kept this relationships (updated commitDetails) in
  ∃ cc cu cdl : list (RecordType * nat),
    calls_of (commit this store commitDetails relationships) w =
      filter_events this store relationships (updated commitDetails)
        ++ ((λ e, CallCreateRecords store e.1 e.2) <$> cc)
        ++ ((λ e, CallUpdateRecords store e.1 e.2) <$> cu)
        ++ ((λ e, CallDeleteRecords store e.1 e.2) <$> cdl)
    ∧ holds w' cc (groups (created commitDetails))
    ∧ holds w' cu (groups queued)
    ∧ holds w' cdl (groups (deleted commitDetails)).
Proof.
  intros w' queued.
  destruct (commit_spec this store commitDetails relationships w)
    as (mc & mu & md & cc & cu & cdl & Hmaps & Htrace
        & Hmc & Hcc & Hmu & Hcu & Hmd & Hcdl & Hfresh).
  exists cc, cu, cdl. split; [|done].
  unfold calls_of. by rewrite Htrace, drop_app_length.
Qed.

Lemma holds_exact (w : World) (entries : list (RecordType * nat))
    (items : list RecordObj) (e : RecordType * nat) :
  holds w entries (groups items) → e ∈ entries →
  e.1 ∈ constructor <$> items
  ∧ arrays w !! e.2 = Some (of_type e.1 items)
  ∧ of_type e.1 items ≠ [].
Proof.
  intros Hh He. destruct (holds_elem_l _ _ _ _ Hh He) as (x & Hx & Hk & Harr).
  pose proof (groups_nonempty _ _ Hx) as Hne.
  apply groups_elem in Hx as [Hin Hx]. rewrite Hk, <- Hx. done.
Qed.

Lemma holds_find_type (w : World) (entries : list (RecordType * nat))
    (items : list RecordObj) (type : RecordType) :
  holds w entries (groups items) → type ∈ constructor <$> items →
  ∃ arr, (type, arr) ∈ entries ∧ arrays w !! arr = Some (of_type type items).
Proof.
  intros Hh Hin.
  destruct (holds_elem_r _ _ _ (type, of_type type items) Hh)
    as ([t arr] & He & Hk & Harr); [by apply groups_elem|].
  simpl in *. subst t. by exists arr.
Qed.

(** A property of every call of [commit] follows from the property on the
    calls of the filtering loop and on the three runs of batched calls. *)
Lemma Forall_commit_calls (P : Event → Prop) (store : Store)
    (events : list Event) (cc cu cdl : list (RecordType * nat)) :
  Forall P events →
  (∀ e, e ∈ cc → P (CallCreateRecords store e.1 e.2)) →
  (∀ e, e ∈ cu → P (CallUpdateRecords store e.1 e.2)) →
  (∀ e, e ∈ cdl → P (CallDeleteRecords store e.1 e.2)) →
  Forall P (events
              ++ ((λ e, CallCreateRecords store e.1 e.2) <$> cc)
              ++ ((λ e, CallUpdateRecords store e.1 e.2) <$> cu)
              ++ ((λ e, CallDeleteRecords store e.1 e.2) <$> cdl)).
Proof.
  intros Hev Hc Hu Hd. rewrite !Forall_app.
  repeat split; [done|..]; apply Forall_fmap, Forall_forall; auto.
Qed.

(** X8: the array [commit] hands to a batched call holds exactly the
    records of the call's type, in their original order, taken from
    [created] for [createRecords], from the queued updates for
    [updateRecords] and from [deleted] for [deleteRecords]; it is never
    empty, and the call is made on the store [commit] was given. *)
Theorem commit_batches_exact (this : Adapter) (store : Store)
    (commitDetails : CommitDetails) (relationships : Relationships) (w : World) :
  let w' := (commit this store commitDetails relationships w).2 in
  Forall (batch_exact w' store (created commitDetails)
            (kept this relationships (updated commitDetails))
            (deleted commitDetails))
    (calls_of (commit this store commitDetails relationships) w).
Proof.
  intros w'.
  destruct (commit_made this store commitDetails relationships w)
    as (cc & cu & cdl & -> & Hcc & Hcu & Hcdl).
  apply Forall_commit_calls.
  - apply Forall_forall.
    intros e (r & _ & _ & [->|[_ ->]])%filter_events_elem; done.
  - intros e He. split; [done|]. by eapply holds_exact.
  - intros e He. split; [done|]. by eapply holds_exact.
  - intros e He. split; [done|]. by eapply holds_exact.
Qed.

Lemma batched_default_calls (make : RecordObj → Event) (records : Enumerable)
    (items : list RecordObj) (w : World) :
  enumerable_items records w = (items, w) →
  calls_of (items ← enumerable_items records;
            forEach items (λ record, call (make record))) w
  = make <$> items.
Proof.
  intros Hitems. unfold calls_of. rewrite bind_run, Hitems. cbn [fst snd].
  rewrite forEach_call. cbn [snd trace]. by rewrite drop_app_length.
Qed.

(** X9: [commit] composes with the default batched methods.  Run on the
    array of any batched call of [commit], the default [createRecords]
    (likewise [updateRecords], [deleteRecords]) makes one single-record
    call for each record of that type, in the order the records have in
    [created] (the queued updates, [deleted]). *)
Theorem commit_then_defaults (this : Adapter) (store : Store)
    (commitDetails : CommitDetails) (relationships : Relationships) (w : World) :
  let w' := (commit this store commitDetails relationships w).2 in
  Forall (default_replays w' (created commitDetails)
            (kept this relationships (updated commitDetails))
            (deleted commitDetails))
    (calls_of (commit this store commitDetails relationships) w).
Proof.
  intros w'. subst w'.
  destruct (commit_made this store commitDetails relationships w)
    as (cc & cu & cdl & -> & Hcc & Hcu & Hcdl).
  apply Forall_commit_calls.
  - apply Forall_forall.
    intros e (r & _ & _ & [->|[_ ->]])%filter_events_elem; done.
  - intros e He. destruct (holds_exact _ _ _ _ Hcc He) as (_ & Harr & _).
    apply (batched_default_calls (CallCreateRecord store e.1)).
    unfold enumerable_items, array_items, gets. by rewrite Harr.
  - intros e He. destruct (holds_exact _ _ _ _ Hcu He) as (_ & Harr & _).
    apply (batched_default_calls (CallUpdateRecord store e.1)).
    unfold enumerable_items, array_items, gets. by rewrite Harr.
  - intros e He. destruct (holds_exact _ _ _ _ Hcdl He) as (_ & Harr & _).
    apply (batched_default_calls (CallDeleteRecord store e.1)).
    unfold enumerable_items, array_items, gets. by rewrite Harr.
Qed.

(** X10: [commit] makes no other calls than these: [shouldCommit], with
    the relationships it was given, on a clean record of [updated];
    [didUpdateRecord] on a clean record of [updated] that [shouldCommit]
    turned down; and batched calls on its own store.  It never calls
    [find] or a single-record method itself, and never reports a dirty
    record or one [shouldCommit] accepted as already up to date. *)
Theorem commit_calls_allowed (this : Adapter) (store : Store)
    (commitDetails : CommitDetails) (relationships : Relationships) (w : World) :
  Forall (commit_call_allowed this store commitDetails relationships)
    (calls_of (commit this store commitDetails relationships) w).
Proof.
  destruct (commit_made this store commitDetails relationships w)
    as (cc & cu & cdl & -> & _).
  apply Forall_commit_calls; try done.
  apply Forall_forall.
  intros e (r & Hr & Hd & [->|[Hs ->]])%filter_events_elem; simpl; auto.
Qed.

(** X11: [commit] makes no call at all exactly when there is nothing to
    commit: [created], [updated] and [deleted] are all empty. *)
Theorem commit_silent_iff_empty (this : Adapter) (store : Store)
    (commitDetails : CommitDetails) (relationships : Relationships) (w : World) :
  calls_of (commit this store commitDetails relationships) w = []
  ↔ created commitDetails = [] ∧ updated commitDetails = []
    ∧ deleted commitDetails = [].
Proof.
  destruct (commit_made this store commitDetails relationships w)
    as (cc & cu & cdl & -> & Hcc & Hcu & Hcdl).
  split.
  - intros (Hev & (->%fmap_nil_inv & (->%fmap_nil_inv
              & ->%fmap_nil_inv)%app_eq_nil)%app_eq_nil)%app_eq_nil.
    apply Forall2_nil_inv_l, groups_nil in Hcc, Hcu, Hcdl.
    split; [done|]. split; [|done].
    destruct (updated commitDetails) as [|r U] eqn:HU; [done|]. exfalso.
    destruct (isDirty r) eqn:Hd.
    + assert (r ∈ kept this relationships (r :: U)) as Hin
        by (apply kept_elem; split; [by left|auto]).
      rewrite Hcu in Hin. by apply elem_of_nil in Hin.
    + assert (CallShouldCommit r relationships
                ∈ filter_events this store relationships (r :: U)) as Hin.
      { apply filter_events_elem. exists r. split; [by left|auto]. }
      rewrite Hev in Hin. by apply elem_of_nil in Hin.
  - intros (Hc & Hu & Hd). rewrite Hc, Hu, Hd in *.
    apply Forall2_nil_inv_r in Hcc as ->.
    apply Forall2_nil_inv_r in Hcu as ->.
    apply Forall2_nil_inv_r in Hcdl as ->. done.
Qed.

(** X12: a clean record of [updated] that [shouldCommit] accepts is asked
    about, is never reported as already up to date, and is handed to
    [updateRecords] in the batch of its type. *)
Theorem commit_clean_record_kept (this : Adapter) (store : Store)
    (commitDetails : CommitDetails) (relationships : Relationships) (w : World)
    (record : RecordObj) :
  record ∈ updated commitDetails →
  isDirty record = false →
  shouldCommit this record relationships = true →
  let w' := (commit this store commitDetails relationships w).2 in
  let made := calls_of (commit this store commitDetails relationships) w in
  CallShouldCommit record relationships ∈ made
  ∧ (∀ s, CallDidUpdateRecord s record ∉ made)
  ∧ ∃ arr items,
      CallUpdateRecords store (constructor record) arr ∈ made
      ∧ arrays w' !! arr = Some items
      ∧ record ∈ items.
Proof.
  intros Hin Hdirty Hshould w' made. subst w' made.
  destruct (commit_made this store commitDetails relationships w)
    as (cc & cu & cdl & -> & Hcc & Hcu & Hcdl).
  split; [|split].
  - rewrite elem_of_app. left. apply filter_events_elem. exists record. auto.
  - intros s. rewrite !elem_of_app, !list_elem_of_fmap, filter_events_elem.
    intros [(r & _ & _ & [?|[Hs [= _ <-]]])|[(? & ? & _)|[(? & ? & _)|(? & ? & _)]]];
      congruence.
  - destruct (holds_find_type _ _ _ (constructor record) Hcu) as (arr & He & Harr).
    { apply list_elem_of_fmap_2, kept_elem. auto. }
    exists arr, (of_type (constructor record)
                   (kept this relationships (updated commitDetails))).
    split; [|split; [done|]].
    + rewrite !elem_of_app. right. right. left.
      apply list_elem_of_fmap. by exists (constructor record, arr).
    + apply list_elem_of_filter. split; [done|]. apply kept_elem. auto.
Qed.

Lemma commit_clean_record_kept_witness :
  let record := new_record 1 Post false in
  let details := {| created := []; updated := [record]; deleted := [] |} in
  let made := calls_of (commit DS_Adapter 0 details 7) empty_world in
  record ∈ updated details
  ∧ isDirty record = false
  ∧ shouldCommit DS_Adapter record 7 = true
  ∧ CallShouldCommit record 7 ∈ made
  ∧ ∀ s, CallDidUpdateRecord s record ∉ made.
Proof.
  intros record details made.
  assert (Hin : record ∈ updated details) by (by left).
  pose proof (commit_clean_record_kept DS_Adapter 0 details 7 empty_world record
                Hin eq_refl eq_refl) as (Hask & Hno & _).
  split; [exact Hin|]. split; [reflexivity|]. split; [reflexivity|].
  split; [exact Hask|exact Hno].
Defined.

Lemma kept_default (relationships : Relationships) (records : list RecordObj) :
  kept DS_Adapter relationships records = records.
Proof.
  unfold kept. induction records as [|r U IH]; [done|].
  rewrite filter_cons_True; [by rewrite IH|].
  unfold keeps. simpl. apply orb_true_r.
Qed.

(** X13: with the base class's [shouldCommit], which always answers true,
    [commit] never calls [didUpdateRecord]; every type that occurs in
    [updated] gets an [updateRecords] call, and the array of such a call
    holds all the records of [updated] that have its type, dirty or
    clean. *)
Theorem commit_default_shouldCommit (store : Store) (commitDetails : CommitDetails)
    (relationships : Relationships) (w : World) :
  let w' := (commit DS_Adapter store commitDetails relationships w).2 in
  let made := calls_of (commit DS_Adapter store commitDetails relationships) w in
  Forall (λ e, is_didUpdateRecord e = false) made
  ∧ Forall (λ type, ∃ arr, CallUpdateRecords store type arr ∈ made
                           ∧ arrays w' !! arr
                             = Some (of_type type (updated commitDetails)))
      (constructor <$> updated commitDetails).
Proof.
  intros w' made. subst w' made.
  destruct (commit_made DS_Adapter store commitDetails relationships w)
    as (cc & cu & cdl & -> & Hcc & Hcu & Hcdl).
  rewrite kept_default in Hcu. split.
  - apply Forall_commit_calls; try done. apply Forall_forall.
    intros e (r & _ & _ & [->|[Hs ->]])%filter_events_elem; done.
  - apply Forall_forall. intros type Htype.
    destruct (holds_find_type _ _ _ type Hcu Htype) as (arr & He & Harr).
    exists arr. split; [|done].
    rewrite !elem_of_app. right. right. left.
    apply list_elem_of_fmap. by exists (type, arr).
Qed.

(** X14: [commit] never filters [created] or [deleted]: every record of
    [created] is in the array of a [createRecords] call for its type, and
    every record of [deleted] in the array of a [deleteRecords] call for
    its type, whatever its dirty flag and whatever [shouldCommit] would
    answer. *)
Theorem commit_created_deleted_dispatched (this : Adapter) (store : Store)
    (commitDetails : CommitDetails) (relationships : Relationships) (w : World)
    (record : RecordObj) :
  let w' := (commit this store commitDetails relationships w).2 in
  let made := calls_of (commit this store commitDetails relationships) w in
  (record ∈ created commitDetails →
   ∃ arr items, CallCreateRecords store (constructor record) arr ∈ made
                ∧ arrays w' !! arr = Some items ∧ record ∈ items)
  ∧ (record ∈ deleted commitDetails →
     ∃ arr items, CallDeleteRecords store (constructor record) arr ∈ made
                  ∧ arrays w' !! arr = Some items ∧ record ∈ items).
Proof.
  intros w' made. subst w' made.
  destruct (commit_made this store commitDetails relationships w)
    as (cc & cu & cdl & -> & Hcc & Hcu & Hcdl).
  split; intros Hin.
  - destruct (holds_find_type _ _ _ (constructor record) Hcc) as (arr & He & Harr);
      [by apply list_elem_of_fmap_2|].
    exists arr, (of_type (constructor record) (created commitDetails)).
    split; [|split; [done|by apply list_elem_of_filter]].
    rewrite !elem_of_app. right. left.
    apply list_elem_of_fmap. by exists (constructor record, arr).
  - destruct (holds_find_type _ _ _ (constructor record) Hcdl) as (arr & He & Harr);
      [by apply list_elem_of_fmap_2|].
    exists arr, (of_type (constructor record) (deleted commitDetails)).
    split; [|split; [done|by apply list_elem_of_filter]].
    rewrite !elem_of_app. right. right. right.
    apply list_elem_of_fmap. by exists (constructor record, arr).
Qed.

Lemma commit_created_deleted_dispatched_witness :
  let fresh := new_record 1 Post false in
  let gone := new_record 2 Comment false in
  let details := {| created := [fresh]; updated := []; deleted := [gone] |} in
  let made := calls_of (commit lazy_adapter 0 details 7) empty_world in
  fresh ∈ created details
  ∧ gone ∈ deleted details
  ∧ (∃ arr items, CallCreateRecords 0 Post arr ∈ made
       ∧ arrays (commit lazy_adapter 0 details 7 empty_world).2 !! arr = Some items
       ∧ fresh ∈ items)
  ∧ (∃ arr items, CallDeleteRecords 0 Comment arr ∈ made
       ∧ arrays (commit lazy_adapter 0 details 7 empty_world).2 !! arr = Some items
       ∧ gone ∈ items).
Proof.
  intros fresh gone details made.
  assert (Hc : fresh ∈ created details) by (by left).
  assert (Hd : gone ∈ deleted details) by (by left).
  split; [exact Hc|]. split; [exact Hd|]. split.
  - exact (proj1 (commit_created_deleted_dispatched lazy_adapter 0 details 7
                    empty_world fresh) Hc).
  - exact (proj2 (commit_created_deleted_dispatched lazy_adapter 0 details 7
                    empty_world gone) Hd).
Defined.

Lemma filter_shouldCommit_events (this : Adapter) (store : Store)
    (relationships : Relationships) (records : list RecordObj) :
  filter (λ e, is_shouldCommit e = true)
    (filter_events this store relationships records)
  = (λ r, CallShouldCommit r relationships)
      <$> filter (λ r, isDirty r = false) records.
Proof.
  unfold filter_events. induction records as [|r records IH]; [done|].
  rewrite bind_cons, filter_app, IH.
  destruct (isDirty r) eqn:Hd.
  - by rewrite filter_cons_False by (by rewrite Hd).
  - rewrite (filter_cons_True _ r) by done. rewrite fmap_cons.
    rewrite filter_cons_True by done.
    destruct (shouldCommit this r relationships); [done|].
    by rewrite filter_cons_False.
Qed.

(** X15: [commit] asks [shouldCommit] about the clean records of [updated],
    one call each, in the order the records have in [updated], always with
    the relationships it was given; dirty records are not asked about. *)
Theorem commit_shouldCommit_sequence (this : Adapter) (store : Store)
    (commitDetails : CommitDetails) (relationships : Relationships) (w : World) :
  filter (λ e, is_shouldCommit e = true)
    (calls_of (commit this store commitDetails relationships) w)
  = (λ r, CallShouldCommit r relationships)
      <$> filter (λ r, isDirty r = false) (updated commitDetails).
Proof.
  destruct (commit_made this store commitDetails relationships w)
    as (cc & cu & cdl & -> & _).
  rewrite !filter_app, filter_shouldCommit_events.
  rewrite !(filter_none (λ e, is_shouldCommit e = true) (_ <$> _));
    [by rewrite !app_nil_r|apply Forall_fmap, Forall_forall; by intros ??..].
Qed.

Lemma batched_arrays_app (l k : list Event) :
  batched_arrays (l ++ k) = batched_arrays l ++ batched_arrays k.
Proof. apply bind_app. Qed.

Lemma batched_arrays_filter_events (this : Adapter) (store : Store)
    (relationships : Relationships) (records : list RecordObj) :
  batched_arrays (filter_events this store relationships records) = [].
Proof.
  unfold filter_events. induction records as [|r records IH]; [done|].
  rewrite bind_cons, batched_arrays_app, IH.
  destruct (isDirty r); [done|].
  by destruct (shouldCommit this r relationships).
Qed.

Lemma batched_arrays_create (store : Store) (entries : list (RecordType * nat)) :
  batched_arrays ((λ e, CallCreateRecords store e.1 e.2) <$> entries) = entries.*2.
Proof.
  induction entries as [|e entries IH]; [done|].
  rewrite !fmap_cons. unfold batched_arrays in *. rewrite bind_cons, IH. done.
Qed.

Lemma batched_arrays_update (store : Store) (entries : list (RecordType * nat)) :
  batched_arrays ((λ e, CallUpdateRecords store e.1 e.2) <$> entries) = entries.*2.
Proof.
  induction entries as [|e entries IH]; [done|].
  rewrite !fmap_cons. unfold batched_arrays in *. rewrite bind_cons, IH. done.
Qed.

Lemma batched_arrays_delete (store : Store) (entries : list (RecordType * nat)) :
  batched_arrays ((λ e, CallDeleteRecords store e.1 e.2) <$> entries) = entries.*2.
Proof.
  induction entries as [|e entries IH]; [done|].
  rewrite !fmap_cons. unfold batched_arrays in *. rewrite bind_cons, IH. done.
Qed.

Lemma commit_layout (this : Adapter) (store : Store) (commitDetails : CommitDetails)
    (relationships : Relationships) (w : World) :
  let w' := (commit this store commitDetails relationships w).2 in
  let queued := kept this relationships (updated commitDetails) in
  let Gc := groups (created commitDetails) in
  let Gu := groups queued in
  let Gd := groups (deleted commitDetails) in
  let n := length (arrays w) in
  arrays w' = arrays w ++ [queued] ++ Gc.*2 ++ Gc.*2 ++ Gu.*2 ++ Gu.*2
                ++ Gd.*2 ++ Gd.*2
  ∧ trace w' = trace w ++ calls_of (commit this store commitDetails relationships) w
  ∧ batched_arrays (calls_of (commit this store commitDetails relationships) w)
    = seq (n + 1 + length Gc) (length Gc)
        ++ seq (n + 1 + 2 * length Gc + length Gu) (length Gu)
        ++ seq (n + 1 + 2 * length Gc + 2 * length Gu + length Gd) (length Gd).
Proof.
  intros w' queued Gc Gu Gd n. subst w'. unfold calls_of.
  rewrite commit_unfold, bind_run.
  unfold Ember_A, new_array. cbn [fst snd].
  rewrite bind_run.
  rewrite (filter_loop_run this store relationships _ _ (arrays w) []) by done.
  cbn [fst snd app arrays maps trace]. fold queued.
  rewrite bind_run.
  rewrite (phase_run (CallCreateRecords store) _ (created commitDetails)) by done.
  cbn [fst snd arrays maps trace].
  rewrite bind_run.
  rewrite (phase_run (CallUpdateRecords store) _ queued).
  2:{ unfold enumerable_items, array_items, gets. cbn [arrays].
      rewrite <- app_assoc. cbn [app]. by rewrite list_lookup_middle. }
  cbn [fst snd arrays maps trace].
  rewrite (phase_run (CallDeleteRecords store) _ (deleted commitDetails)) by done.
  cbn [fst snd arrays maps trace]. fold Gc Gu Gd.
  rewrite <- !app_assoc, drop_app_length.
  rewrite !length_app, !length_fmap. cbn [length]. fold n.
  split; [done|]. split; [done|].
  rewrite !batched_arrays_app, batched_arrays_filter_events.
  rewrite batched_arrays_create, batched_arrays_update, batched_arrays_delete.
  rewrite !layout_addresses. cbn [app].
  replace (n + (1 + (length Gc + length Gc)) + length Gu)
    with (n + 1 + 2 * length Gc + length Gu) by lia.
  replace (n + (1 + (length Gc + (length Gc + (length Gu + length Gu))))
           + length Gd)
    with (n + 1 + 2 * length Gc + 2 * length Gu + length Gd) by lia.
  done.
Qed.

(** X16: [commit] leaves every array that existed before as it was and
    only adds to the call log.  The arrays it hands to its batched calls
    are allocated by [commit] itself, after the array in which it queues
    the updates, and no two batched calls receive the same array. *)
Theorem commit_fresh_copies (this : Adapter) (store : Store)
    (commitDetails : CommitDetails) (relationships : Relationships) (w : World) :
  let w' := (commit this store commitDetails relationships w).2 in
  let made := calls_of (commit this store commitDetails relationships) w in
  (∃ new, arrays w' = arrays w ++ new)
  ∧ trace w' = trace w ++ made
  ∧ arrays w' !! length (arrays w)
    = Some (kept this relationships (updated commitDetails))
  ∧ NoDup (batched_arrays made)
  ∧ Forall (λ arr, length (arrays w) < arr < length (arrays w')) (batched_arrays made).
Proof.
  intros w' made. subst w' made.
  destruct (commit_layout this store commitDetails relationships w)
    as (Harr & Htrace & Hbatched).
  rewrite Harr, Hbatched.
  split; [by eexists|]. split; [done|].
  split; [cbn [app]; by rewrite list_lookup_middle|].
  split.
  - rewrite !NoDup_app. repeat split; try apply NoDup_seq.
    + intros a. rewrite elem_of_app, !elem_of_seq. lia.
    + intros a. rewrite !elem_of_seq. lia.
  - apply Forall_forall. intros a.
    rewrite !elem_of_app, !elem_of_seq, !length_app, !length_fmap.
    cbn [length]. lia.
Qed.
